(** * A shallow embedding of the workflow data-flow resolution engine

    The development follows the TypeScript sources

    - [WorkflowExecutionContext.tsx]: schema signatures, storage compaction,
      the execution state store and the data availability resolver;
    - the workflow utilities ([parseInputValue]).

    JavaScript values are embedded as a tree type, objects as association
    lists kept in property enumeration order, the mutable [Set]s of the
    predecessor search as duplicate-free lists in insertion order, and
    exceptions as an explicit outcome type.  *)

From Stdlib Require Import String Ascii List ZArith NArith Bool Arith Lia.
From Stdlib Require Import Floats Uint63 DecimalString.
From Stdlib Require Import Sorting.Permutation.
Import ListNotations.
Open Scope string_scope.
Set Warnings "-register-all".

(** ** Strings

    A JavaScript string is represented by its UTF-8 bytes.  Only operations
    that the sources use are modelled. *)

Module JsString.

Definition bytes (l : list nat) : string :=
  fold_right (fun n s => String (ascii_of_nat n) s) "" l.

(** [String.prototype.includes]. *)
Fixpoint includes (needle hay : string) : bool :=
  String.prefix needle hay
  || match hay with
     | EmptyString => false
     | String _ rest => includes needle rest
     end.

(** [String.prototype.toLowerCase] on the ASCII letters; every other byte
    is kept.  The results are only ever compared with ASCII literals that
    no non-ASCII character lower-cases to. *)
Definition lower_ascii (c : ascii) : ascii :=
  let n := nat_of_ascii c in
  if ((65 <=? n) && (n <=? 90))%nat then ascii_of_nat (n + 32) else c.

Fixpoint toLowerCase (s : string) : string :=
  match s with
  | EmptyString => EmptyString
  | String c rest => String (lower_ascii c) (toLowerCase rest)
  end.

(** ECMAScript WhiteSpace and LineTerminator code points, in UTF-8. *)
Definition whitespace : list string :=
  map bytes
    [ [9]; [10]; [11]; [12]; [13]; [32]; [194; 160]; [225; 154; 128];
      [226; 128; 128]; [226; 128; 129]; [226; 128; 130]; [226; 128; 131];
      [226; 128; 132]; [226; 128; 133]; [226; 128; 134]; [226; 128; 135];
      [226; 128; 136]; [226; 128; 137]; [226; 128; 138]; [226; 128; 168];
      [226; 128; 169]; [226; 128; 175]; [226; 129; 159]; [227; 128; 128];
      [239; 187; 191] ].

Fixpoint drop_prefix (p s : string) : option string :=
  match p, s with
  | EmptyString, _ => Some s
  | String a p', String b s' =>
      if Ascii.eqb a b then drop_prefix p' s' else None
  | String _ _, EmptyString => None
  end.

(** Removes one leading white space character, if there is one. *)
Definition strip_ws (s : string) : option string :=
  fold_right
    (fun p acc => match drop_prefix p s with Some r => Some r | None => acc end)
    None whitespace.

Fixpoint trimStart_fuel (fuel : nat) (s : string) : string :=
  match fuel with
  | O => s
  | S fuel' =>
      match strip_ws s with
      | Some rest => trimStart_fuel fuel' rest
      | None => s
      end
  end.

Definition trimStart (s : string) : string :=
  trimStart_fuel (String.length s) s.

Definition blank (s : string) : bool := String.eqb (trimStart s) "".

Fixpoint trimEnd (s : string) : string :=
  match s with
  | EmptyString => EmptyString
  | String c rest => if blank s then EmptyString else String c (trimEnd rest)
  end.

(** [String.prototype.trim]. *)
Definition trim (s : string) : string := trimEnd (trimStart s).

(** Decimal rendering of an array position, as used for the property
    names of arrays and strings. *)
Definition of_nat (n : nat) : string :=
  NilZero.string_of_uint (Nat.to_uint n).

(** A property name is an array index when it is the canonical decimal
    form of an integer below [2^32 - 1]. *)
Definition array_index (k : string) : option N :=
  match NilEmpty.uint_of_string k with
  | Some d =>
      if String.eqb (NilZero.string_of_uint (Decimal.unorm d)) k
      then let n := N.of_uint d in
           if N.ltb n 4294967295 then Some n else None
      else None
  | None => None
  end.

Fixpoint join (sep : string) (l : list string) : string :=
  match l with
  | [] => ""
  | [s] => s
  | s :: rest => s ++ sep ++ join sep rest
  end.

End JsString.

(** ** Objects

    A JavaScript object is the list of its own enumerable string-keyed
    properties in enumeration order: array indices first, in ascending
    numeric order, then the other names in insertion order.  Property names
    are ordinary names: the members inherited from [Object.prototype] and the
    special name [__proto__] are outside the model. *)

Module JsObject.

Definition t (A : Type) : Type := list (string * A).

(** [precedes k k'] holds when a fresh property [k] is enumerated before an
    existing property [k'] whatever the insertion order. *)
Definition precedes (k k' : string) : bool :=
  match JsString.array_index k, JsString.array_index k' with
  | Some i, Some j => N.ltb i j
  | Some _, None => true
  | None, _ => false
  end.

(** [o[k]]. *)
Fixpoint get {A} (o : t A) (k : string) : option A :=
  match o with
  | [] => None
  | (k', v) :: rest => if String.eqb k k' then Some v else get rest k
  end.

(** [o[k] = v]: an existing property keeps its place. *)
Fixpoint set {A} (o : t A) (k : string) (v : A) : t A :=
  match o with
  | [] => [(k, v)]
  | (k', v') :: rest =>
      if String.eqb k k' then (k, v) :: rest
      else if precedes k k' then (k, v) :: (k', v') :: rest
      else (k', v') :: set rest k v
  end.

(** [delete o[k]]. *)
Fixpoint delete {A} (o : t A) (k : string) : t A :=
  match o with
  | [] => []
  | (k', v') :: rest =>
      if String.eqb k k' then rest else (k', v') :: delete rest k
  end.

Definition keys {A} (o : t A) : list string := map fst o.
Definition values {A} (o : t A) : list A := map snd o.

(** Copies the given properties, in order, onto [base]. *)
Definition assign {A} (base : t A) (props : t A) : t A :=
  fold_left (fun acc kv => set acc (fst kv) (snd kv)) props base.

(** The list really is an enumeration order: no name occurs twice and no
    later property would have to be enumerated before an earlier one. *)
Fixpoint ordered_keys (ks : list string) : bool :=
  match ks with
  | [] => true
  | k :: rest =>
      forallb (fun k' => negb (String.eqb k' k) && negb (precedes k' k)) rest
      && ordered_keys rest
  end.

Definition ordered {A} (o : t A) : bool := ordered_keys (keys o).

End JsObject.

(** ** Values *)

Inductive value : Type :=
| VUndefined
| VNull
| VBool (b : bool)
| VNum (n : float)
| VStr (s : string)
| VArr (items : list value)
| VObj (fields : list (string * value)).

Definition num_of_nat (n : nat) : float :=
  PrimFloat.of_uint63 (Uint63.of_Z (Z.of_nat n)).

(** [typeof]. *)
Definition typeofValue (v : value) : string :=
  match v with
  | VUndefined => "undefined"
  | VBool _ => "boolean"
  | VNum _ => "number"
  | VStr _ => "string"
  | VNull | VArr _ | VObj _ => "object"
  end.

(** Truthiness, as tested by [!x] and [a && b]. *)
Definition truthy (v : value) : bool :=
  match v with
  | VUndefined | VNull => false
  | VBool b => b
  | VNum n => negb (PrimFloat.is_nan n || PrimFloat.is_zero n)
  | VStr s => negb (String.eqb s "")
  | VArr _ | VObj _ => true
  end.

(** ** Schema signature and compaction *)

Fixpoint insert_key (kv : string * string) (l : list (string * string))
  : list (string * string) :=
  match l with
  | [] => [kv]
  | h :: rest =>
      if String.leb (fst kv) (fst h) then kv :: l else h :: insert_key kv rest
  end.

(** [Array.prototype.sort] on the keys, which are compared byte by byte
    (the order of their UTF-16 code units for ASCII names); the signatures
    travel with the keys. *)
Definition sort_keys (l : list (string * string)) : list (string * string) :=
  fold_right insert_key [] l.

(** [getSchemaSignature]: the signature of every field is computed before
    the keys are sorted, which gives the same string as sorting first. *)
Fixpoint getSchemaSignature (v : value) : string :=
  match v with
  | VNull => "null"
  | VArr [] => "array:empty"
  | VArr (first :: _) => "array:" ++ getSchemaSignature first
  | VObj fields =>
      let signatures :=
        map (fun kv => fst kv ++ ":" ++ snd kv)
          (sort_keys
             (map (fun kv => (fst kv, getSchemaSignature (snd kv))) fields)) in
      "object:{" ++ JsString.join "," signatures ++ "}"
  | _ => typeofValue v
  end.

(** [hasUniformSchema]. *)
Definition hasUniformSchema (arr : list value) : bool :=
  if (length arr <=? 1)%nat then true
  else
    let firstSignature := getSchemaSignature (nth 0 arr VUndefined) in
    forallb
      (fun item => String.eqb (getSchemaSignature item) firstSignature) arr.

(** [optimizeOutputForStorage]; [value[0]] of an empty array is [undefined]. *)
Fixpoint optimizeOutputForStorage (arrayThreshold : nat) (v : value) : value :=
  match v with
  | VNull | VUndefined => v
  | VArr arr =>
      if (arrayThreshold <? length arr)%nat && hasUniformSchema arr then
        let optimizedFirst :=
          match arr with
          | [] => VUndefined
          | first :: _ => optimizeOutputForStorage arrayThreshold first
          end in
        VObj [ ("__optimized", VBool true);
               ("__originalLength", VNum (num_of_nat (length arr)));
               ("items", VArr [optimizedFirst]) ]
      else VArr (map (optimizeOutputForStorage arrayThreshold) arr)
  | VObj fields =>
      VObj
        (fold_left
           (fun result kv =>
              JsObject.set result (fst kv)
                (optimizeOutputForStorage arrayThreshold (snd kv)))
           fields [])
  | _ => v
  end.

Definition defaultThreshold : nat := 2.

(** A value as JavaScript can hold it: every object lists its properties in
    enumeration order. *)
Fixpoint well_formed (v : value) : bool :=
  match v with
  | VArr items => forallb well_formed items
  | VObj fields =>
      JsObject.ordered fields
      && forallb (fun kv => well_formed (snd kv)) fields
  | _ => true
  end.

(** ** Outcomes of computations that may throw *)

Inductive exn : Type :=
| JsError (name message : string).

Inductive outcome (A : Type) : Type :=
| Ok (a : A)
| Throw (e : exn)
| OutOfFuel.

Arguments Ok {A} a.
Arguments Throw {A} e.
Arguments OutOfFuel {A}.

Definition bind {A B} (m : outcome A) (k : A -> outcome B) : outcome B :=
  match m with
  | Ok a => k a
  | Throw e => Throw e
  | OutOfFuel => OutOfFuel
  end.

Notation "x <- m ;; k" := (bind m (fun x => k))
  (at level 61, m at next level, right associativity).

(** [try { body } catch (e) { handler }]. *)
Definition try_catch {A} (body : outcome A) (handler : exn -> outcome A)
  : outcome A :=
  match body with
  | Throw e => handler e
  | other => other
  end.

(** ** Execution state store *)

Inductive ExecutionStatus : Type :=
| StatusSuccess
| StatusError
| StatusPending.

Record NodeExecutionResult : Type := mkResult {
  status : ExecutionStatus;
  output : value;
  timestamp : Z;
  nodeType : string;
  nodeName : string
}.

Record WorkflowExecutionState : Type := mkState {
  session : value;
  source : value;
  nodeOutputs : JsObject.t NodeExecutionResult;
  lastExecutionId : option string;
  lastExecutionTime : option Z
}.

Definition initialState : WorkflowExecutionState :=
  {| session := VObj [];
     source := VObj [];
     nodeOutputs := [];
     lastExecutionId := None;
     lastExecutionTime := None |}.

Fixpoint indexed_from {A} (i : nat) (l : list A) : list (string * A) :=
  match l with
  | [] => []
  | x :: rest => (JsString.of_nat i, x) :: indexed_from (S i) rest
  end.

(** The own enumerable properties that an object spread [{...v}] copies:
    the fields of an object, the elements of an array, the characters of a
    string (one per byte here) and nothing for the other values. *)
Definition ownEntries (v : value) : list (string * value) :=
  match v with
  | VObj fields => fields
  | VArr items => indexed_from 0 items
  | VStr s =>
      indexed_from 0
        (map (fun c => VStr (String c EmptyString)) (list_ascii_of_string s))
  | _ => []
  end.

(** [{ ...a, ...b }]. *)
Definition spread (a b : value) : value :=
  VObj (JsObject.assign (JsObject.assign [] (ownEntries a)) (ownEntries b)).

Definition isChatInput (nodeType : string) : bool :=
  String.eqb nodeType "chatInputNode".

(** [updateNodeOutput]; [now] is the reading of [Date.now()].  The shallow
    copy of the previous state shares its [nodeOutputs] object, which is
    written in place; the previous state is not read again, so the store is
    passed from operation to operation as a value. *)
Definition updateNodeOutput (prevState : WorkflowExecutionState)
  (nodeId : string) (out : value) (type name : string) (now : Z)
  : WorkflowExecutionState :=
  let optimizedOutput := optimizeOutputForStorage defaultThreshold out in
  {| nodeOutputs :=
       JsObject.set (nodeOutputs prevState) nodeId
         {| status := StatusSuccess;
            output := optimizedOutput;
            timestamp := now;
            nodeType := type;
            nodeName := name |};
     session :=
       if isChatInput type then optimizedOutput else session prevState;
     source := optimizedOutput;
     lastExecutionId := lastExecutionId prevState;
     lastExecutionTime := lastExecutionTime prevState |}.

(** [clearNodeOutput]. *)
Definition clearNodeOutput (prevState : WorkflowExecutionState)
  (nodeId : string) : WorkflowExecutionState :=
  let outputs := JsObject.delete (nodeOutputs prevState) nodeId in
  let remainingOutputs := JsObject.values outputs in
  {| nodeOutputs := outputs;
     session :=
       fold_left
         (fun acc result =>
            if isChatInput (nodeType result) then spread acc (output result)
            else acc)
         remainingOutputs (VObj []);
     source :=
       fold_left (fun acc result => spread acc (output result))
         remainingOutputs (VObj []);
     lastExecutionId := lastExecutionId prevState;
     lastExecutionTime := lastExecutionTime prevState |}.

(** [clearAllOutputs]. *)
Definition clearAllOutputs : WorkflowExecutionState := initialState.

(** [getNodeOutput]. *)
Definition getNodeOutput (state : WorkflowExecutionState) (nodeId : string)
  : option NodeExecutionResult :=
  JsObject.get (nodeOutputs state) nodeId.


(** The operations that change the store. *)
Inductive StoreOp : Type :=
| RecordOutput (nodeId : string) (out : value) (type name : string) (now : Z)
| ClearOutput (nodeId : string)
| ClearAll.

Definition applyOp (state : WorkflowExecutionState) (op : StoreOp)
  : WorkflowExecutionState :=
  match op with
  | RecordOutput nodeId out type name now =>
      updateNodeOutput state nodeId out type name now
  | ClearOutput nodeId => clearNodeOutput state nodeId
  | ClearAll => clearAllOutputs
  end.

Definition runOps (ops : list StoreOp) : WorkflowExecutionState :=
  fold_left applyOp ops initialState.

(** ** Workflow structure *)

Module Flow.

Module Node.
Record t : Type := make {
  id : string;
  type : option string
}.
End Node.

Module Edge.
Record t : Type := make {
  id : string;
  source : string;
  target : string;
  sourceHandle : option string;
  targetHandle : option string
}.
End Edge.

End Flow.

(** An edge between two nodes that names no handles. *)
Definition connect (source target : string) : Flow.Edge.t :=
  Flow.Edge.make (source ++ "->" ++ target) source target None None.

(** ** Predecessor search *)

(** A JavaScript [Set] of strings, in insertion order. *)
Definition StringSet : Type := list string.

Definition set_has (s : StringSet) (x : string) : bool :=
  existsb (String.eqb x) s.

Definition set_add (s : StringSet) (x : string) : StringSet :=
  if set_has s x then s else (s ++ [x])%list.

Record SearchState : Type := mkSearch {
  predecessors : StringSet;
  visited : StringSet
}.

(** The callback of [edges.forEach] inside [dfs]; [visit] is the recursive
    call. *)
Definition visitEdge (visit : string -> SearchState -> outcome SearchState)
  (nodeId : string) (acc : outcome SearchState) (edge : Flow.Edge.t)
  : outcome SearchState :=
  st <- acc ;;
  if String.eqb (Flow.Edge.target edge) nodeId then
    visit (Flow.Edge.source edge)
      {| predecessors := set_add (predecessors st) (Flow.Edge.source edge);
         visited := visited st |}
  else Ok st.

(** The inner [dfs] of [findPredecessors]; the two sets are threaded through
    the calls, [fuel] bounds the depth of the recursion. *)
Fixpoint dfs (fuel : nat) (edges : list Flow.Edge.t) (nodeId : string)
  (st : SearchState) : outcome SearchState :=
  match fuel with
  | O => OutOfFuel
  | S fuel' =>
      if set_has (visited st) nodeId then Ok st
      else
        fold_left (visitEdge (dfs fuel' edges) nodeId) edges
          (Ok {| predecessors := predecessors st;
                 visited := set_add (visited st) nodeId |})
  end.

(** Enough fuel for any graph with these edges: a call that does not return
    at once marks a node that was not marked before, and only the target and
    the sources of the edges are ever marked. *)
Definition searchFuel (edges : list Flow.Edge.t) : nat := S (S (length edges)).

(** [findPredecessors]. *)
Definition findPredecessors (edges : list Flow.Edge.t) (targetNodeId : string)
  : outcome (list string) :=
  st <- dfs (searchFuel edges) edges targetNodeId
          {| predecessors := []; visited := [] |} ;;
  Ok (predecessors st).

(** ** Data availability resolver *)

(** [getNodeById]. *)
Definition getNodeById (nodes : list Flow.Node.t) (nodeId : string)
  : option Flow.Node.t :=
  find (fun node => String.eqb (Flow.Node.id node) nodeId) nodes.

Definition hasType (node : option Flow.Node.t) (t : string) : bool :=
  match node with
  | Some n =>
      match Flow.Node.type n with
      | Some t' => String.eqb t' t
      | None => false
      end
  | None => false
  end.

Definition directInputMarker : string := "session.direct_input".

(** [filterOutput]. *)
Definition filterOutput (out : value) : value :=
  match out with
  | VObj fields =>
      VObj
        (fold_left
           (fun filtered kv =>
              if negb (JsString.includes directInputMarker (fst kv))
              then JsObject.set filtered (fst kv) (snd kv)
              else filtered)
           fields [])
  | _ => out
  end.

(** The direct predecessors of [nodeId], as the resolver lists them. *)
Definition directPredecessors (nodes : list Flow.Node.t)
  (edges : list Flow.Edge.t) (nodeId : string) : list string :=
  let currentNode := getNodeById nodes nodeId in
  filter
    (fun predecessorId =>
       if hasType currentNode "agentNode"
       then negb (hasType (getNodeById nodes predecessorId) "toolBuilderNode")
       else true)
    (map Flow.Edge.source
       (filter (fun edge => String.eqb (Flow.Edge.target edge) nodeId) edges)).

(** [predecessorOutput && predecessorOutput.output], then [filterOutput]. *)
Definition exposedOutput (state : WorkflowExecutionState)
  (predecessorId : string) : option value :=
  match JsObject.get (nodeOutputs state) predecessorId with
  | Some predecessorOutput =>
      if truthy (output predecessorOutput)
      then Some (filterOutput (output predecessorOutput))
      else None
  | None => None
  end.

(** The object built by the two [forEach] loops over predecessor ids. *)
Definition collectOutputs (state : WorkflowExecutionState)
  (ids : list string) : JsObject.t value :=
  fold_left
    (fun acc predecessorId =>
       match exposedOutput state predecessorId with
       | Some out => JsObject.set acc predecessorId out
       | None => acc
       end)
    ids [].

Definition predecessorIdsOf (found : list string) (nodeId : string)
  : list string :=
  filter (fun id => negb (String.eqb id nodeId)) found.

(** The [source] entry: the output of a single direct predecessor, or the
    outputs of the direct predecessors keyed by node id. *)
Definition directSource (state : WorkflowExecutionState)
  (direct : list string) : value :=
  match direct with
  | [only] =>
      match exposedOutput state only with
      | Some out => out
      | None => VObj []
      end
  | _ => VObj (collectOutputs state direct)
  end.

(** The [availableData] object literal. *)
Definition availableData (sessionData sourceData : value)
  (outputs : JsObject.t value) : value :=
  VObj [ ("session", sessionData);
         ("source", sourceData);
         ("node_outputs", VObj outputs) ].

(** [getAvailableDataForNode]. *)
Definition getAvailableDataForNode (state : WorkflowExecutionState)
  (nodes : list Flow.Node.t) (edges : list Flow.Edge.t) (nodeId : string)
  : outcome value :=
  found <- findPredecessors edges nodeId ;;
  let predecessorIds := predecessorIdsOf found nodeId in
  let node := getNodeById nodes nodeId in
  if (length predecessorIds =? 0)%nat && hasType node "chatInputNode"
  then Ok (session state)
  else if (length predecessorIds =? 0)%nat then Ok VNull
  else
    Ok (availableData (session state)
          (directSource state (directPredecessors nodes edges nodeId))
          (collectOutputs state predecessorIds)).

(** ** Typed parsing of input text *)

(** Modelled from the spec: the declaration of [SchemaType] is not part of
    the sources at hand; it is the closed set of type tags [string],
    [number], [boolean], [object], [array] and [any]. *)
Inductive SchemaType : Type :=
| TString
| TNumber
| TBoolean
| TObject
| TArray
| TAny.

Section ParseInput.

(** The two built-ins of the platform: [JSON.parse], which returns the
    parsed value or throws a [SyntaxError], and [parseFloat], which
    returns [NaN] when the text does not start with a number. *)
Variable JSON_parse : string -> option value.
Variable parseFloat : string -> float.

Definition jsonParse (text : string) : outcome value :=
  match JSON_parse text with
  | Some v => Ok v
  | None => Throw (JsError "SyntaxError" text)
  end.

(** The [switch] inside the outer [try]. *)
Definition parseByType (text : string) (type : SchemaType) : outcome value :=
  match type with
  | TString => Ok (VStr text)
  | TNumber =>
      let num := parseFloat text in
      if PrimFloat.is_nan num
      then Throw (JsError "Error" ("Invalid number: " ++ text))
      else Ok (VNum num)
  | TBoolean =>
      let lowerValue := JsString.trim (JsString.toLowerCase text) in
      if String.eqb lowerValue "true" || String.eqb lowerValue "1"
         || String.eqb lowerValue "yes"
      then Ok (VBool true)
      else if String.eqb lowerValue "false" || String.eqb lowerValue "0"
              || String.eqb lowerValue "no"
      then Ok (VBool false)
      else Throw (JsError "Error" ("Invalid boolean: " ++ text))
  | TObject | TArray =>
      try_catch (jsonParse text)
        (fun _ => Throw (JsError "Error" ("Invalid JSON: " ++ text)))
  | TAny =>
      try_catch (jsonParse text)
        (fun _ =>
           let num := parseFloat text in
           if negb (PrimFloat.is_nan num) then Ok (VNum num)
           else
             let lowerValue := JsString.trim (JsString.toLowerCase text) in
             if String.eqb lowerValue "true" then Ok (VBool true)
             else if String.eqb lowerValue "false" then Ok (VBool false)
             else Ok (VStr text))
  end.

(** [parseInputValue]: what the call returns or throws to its caller. *)
Definition parseInputValue (text : string) (type : SchemaType)
  : outcome value :=
  if String.eqb text "" || String.eqb (JsString.trim text) ""
  then Ok (VStr text)
  else try_catch (parseByType text type) (fun _ => Ok (VStr text)).

End ParseInput.

(** ** Reference definitions for compaction

    [CompactWith] follows the wording of the specification of compaction,
    with the names of the two bookkeeping fields of the marker left open. *)







(** ** Sample inputs *)




(** ** Reference definitions for the store

    The aggregates as a replay of the recorded results: outputs are merged
    in the iteration order of the store, a later write of a key replacing
    an earlier one. *)

Definition mergeOutputs (outs : list value) : value :=
  fold_left spread outs (VObj []).

Definition replaySession (outputs : JsObject.t NodeExecutionResult) : value :=
  mergeOutputs
    (map output
       (filter (fun r => isChatInput (nodeType r)) (JsObject.values outputs))).

Definition replaySource (outputs : JsObject.t NodeExecutionResult) : value :=
  mergeOutputs (map output (JsObject.values outputs)).

Definition derivable (state : WorkflowExecutionState) : Prop :=
  session state = replaySession (nodeOutputs state)
  /\ source state = replaySource (nodeOutputs state).

(** The value written last for a key in a sequence of property writes. *)
Fixpoint lastWrite (props : list (string * value)) (k : string)
  : option value :=
  match props with
  | [] => None
  | (k', v) :: rest =>
      match lastWrite rest k with
      | Some w => Some w
      | None => if String.eqb k k' then Some v else None
      end
  end.

(** Every property write that a replay of the store performs, in order. *)
Definition replayWrites (outputs : JsObject.t NodeExecutionResult)
  : list (string * value) :=
  concat (map (fun r => ownEntries (output r)) (JsObject.values outputs)).

(** Clearing a node and recording it again gives back the aggregates. *)
Definition reproducesAggregates (state : WorkflowExecutionState)
  (nodeId : string) (out : value) (type name : string) (now : Z) : Prop :=
  let again :=
    updateNodeOutput (clearNodeOutput state nodeId) nodeId out type name now in
  session again = session state /\ source again = source state.

Definition chatOutput : value :=
  VObj [ ("message", VStr "hello");
         ("session.direct_input", VStr "hello") ].

Definition chatThenModel : list StoreOp :=
  [ RecordOutput "chat-1" chatOutput "chatInputNode" "Chat" 1000;
    RecordOutput "llm-1" (VObj [("answer", VStr "hi")])
      "llmModelNode" "Model" 2000 ].

(** ** Reference definitions for the predecessor search *)

(** [upstream edges n p]: a non-empty path of edges leads from [p] to [n]. *)
Inductive upstream (edges : list Flow.Edge.t) (n : string) : string -> Prop :=
| upstream_direct e :
    In e edges -> Flow.Edge.target e = n -> upstream edges n (Flow.Edge.source e)
| upstream_step e :
    In e edges -> upstream edges n (Flow.Edge.target e) ->
    upstream edges n (Flow.Edge.source e).

(** Some cycle can be reached backward from the target. *)
Definition cycleBehind (edges : list Flow.Edge.t) (target : string) : Prop :=
  exists x, (x = target \/ upstream edges target x) /\ upstream edges x x.

Definition raisesCyclicGraphError (edges : list Flow.Edge.t) (target : string)
  : Prop :=
  exists message,
    findPredecessors edges target = Throw (JsError "CyclicGraphError" message).

(** The nodes that the search can mark, and how many are not marked yet. *)
Definition searchUniverse (edges : list Flow.Edge.t) (target : string)
  : list string :=
  target :: map Flow.Edge.source edges.

Definition unvisited (universe : list string) (seen : StringSet) : nat :=
  length (filter (fun x => negb (set_has seen x)) universe).

(** Every edge into [v] has its source among the predecessors found and
    among the nodes marked. *)
Definition closedUnder (edges : list Flow.Edge.t) (st : SearchState)
  (v : string) : Prop :=
  forall e, In e edges -> Flow.Edge.target e = v ->
    In (Flow.Edge.source e) (predecessors st) /\ In (Flow.Edge.source e) (visited st).

(** Everything found so far is upstream of the target. *)
Definition soundSearch (edges : list Flow.Edge.t) (target : string)
  (st : SearchState) : Prop :=
  forall p, In p (predecessors st) -> upstream edges target p.

Definition grows (st st' : SearchState) : Prop :=
  incl (visited st) (visited st')
  /\ incl (predecessors st) (predecessors st').

(** What a call of [dfs] on [nodeId] that takes [st] to [st'] has done. *)
Definition searched (edges : list Flow.Edge.t) (target nodeId : string)
  (st st' : SearchState) : Prop :=
  grows st st'
  /\ (NoDup (predecessors st) -> NoDup (predecessors st'))
  /\ (nodeId = target \/ upstream edges target nodeId ->
      soundSearch edges target st -> soundSearch edges target st')
  /\ (forall v, In v (visited st') ->
        In v (visited st) \/ closedUnder edges st' v).

Definition selfLoop : list Flow.Edge.t := [connect "A" "A"].

Definition selfLoopNodes : list Flow.Node.t :=
  [ Flow.Node.make "A" (Some "llmModelNode") ].

(** ** Reference definitions for the availability resolver *)

(** No own property of the value has a name that contains the marker. *)
Definition redacted (v : value) : Prop :=
  forall k, In k (JsObject.keys (ownEntries v)) ->
    JsString.includes directInputMarker k = false.

(** The node has a predecessor other than itself. *)
Definition hasOtherPredecessor (edges : list Flow.Edge.t) (nodeId : string)
  : Prop :=
  exists p, upstream edges nodeId p /\ p <> nodeId.

(** The type rule keeps [p] among the direct predecessors of [nodeId]. *)
Definition keptAsDirect (nodes : list Flow.Node.t) (nodeId p : string) : bool :=
  if hasType (getNodeById nodes nodeId) "agentNode"
  then negb (hasType (getNodeById nodes p) "toolBuilderNode")
  else true.


Definition chainNodes : list Flow.Node.t :=
  [ Flow.Node.make "chat-1" (Some "chatInputNode");
    Flow.Node.make "llm-1" (Some "llmModelNode");
    Flow.Node.make "mail-1" (Some "sendMailNode") ].

Definition chainEdges : list Flow.Edge.t :=
  [ connect "chat-1" "llm-1"; connect "llm-1" "mail-1" ].

(** ** Reference definitions for typed parsing *)

(** The guard [!value || value.trim() === ""]. *)
Definition blankInput (text : string) : bool :=
  String.eqb text "" || String.eqb (JsString.trim text) "".

(** [value.toLowerCase().trim()]. *)
Definition lowered (text : string) : string :=
  JsString.trim (JsString.toLowerCase text).



(** Stand-ins for the two built-ins on a platform where no text at all is
    JSON or starts with a number; they agree with [JSON.parse] and
    [parseFloat] on words such as [yes], [no] and [nah]. *)
Definition noJson : string -> option value := fun _ => None.
Definition noNumber : string -> float := fun _ => nan.




(** ** Sample inputs for the resolver *)

(** An agent fed by a chat input and by a tool builder. *)
Definition agentNodes : list Flow.Node.t :=
  [ Flow.Node.make "chat-1" (Some "chatInputNode");
    Flow.Node.make "tool-1" (Some "toolBuilderNode");
    Flow.Node.make "agent-1" (Some "agentNode") ].

Definition agentEdges : list Flow.Edge.t :=
  [ connect "chat-1" "agent-1"; connect "tool-1" "agent-1" ].

Definition agentRecorded : list StoreOp :=
  [ RecordOutput "chat-1" chatOutput "chatInputNode" "Chat" 1000;
    RecordOutput "tool-1" (VObj [("tool", VStr "search")])
      "toolBuilderNode" "Tool" 2000 ].


(** ** Template variables *)

Definition isBrace (c : ascii) : bool :=
  Ascii.eqb c "{" || Ascii.eqb c "}".

(** The text does not go on with a character of the class [[^\s{}]]. *)
Definition breaksName (s : string) : bool :=
  match s with
  | EmptyString => true
  | String c _ =>
      isBrace c
      || match JsString.strip_ws s with Some _ => true | None => false end
  end.

(** The longest run of [[^\s{}]] at the head of the text, and what follows
    it. *)
Fixpoint nameRun (s : string) : string * string :=
  match s with
  | EmptyString => (EmptyString, EmptyString)
  | String c rest =>
      if breaksName s then (EmptyString, s)
      else let (name, after) := nameRun rest in (String c name, after)
  end.

(** One match of [/{{([^\s{}]+)}}/] at the head of the text: the captured
    name and the text after the match.  The run of the class is greedy, and
    no shorter run can be followed by the closing braces. *)
Definition matchHere (s : string) : option (string * string) :=
  match s with
  | String "{" (String "{" inner) =>
      let (name, after) := nameRun inner in
      if String.eqb name "" then None
      else match after with
           | String "}" (String "}" rest) => Some (name, rest)
           | _ => None
           end
  | _ => None
  end.

(** [text.match(/{{([^\s{}]+)}}/g)] followed by [v.slice(2, -2)]: the names
    of the successive matches from left to right; [skip] counts the
    characters of the last match that are still to be passed over. *)
Fixpoint scanFrom (skip : nat) (s : string) : list string :=
  match s with
  | EmptyString => []
  | String _ rest =>
      match skip with
      | S skip' => scanFrom skip' rest
      | O =>
          match matchHere s with
          | Some (name, _) => name :: scanFrom (String.length name + 3) rest
          | None => scanFrom 0 rest
          end
      end
  end.

(** [extractDynamicVariables]: the [Set] of names, in insertion order. *)
Definition extractDynamicVariables (text : string) : StringSet :=
  fold_left set_add (scanFrom 0 text) [].

(** A parameter description [{ type, required? }]. *)
Record ParamSpec : Type := mkParam {
  paramType : string;
  paramRequired : option bool
}.

(** [extractDynamicVariablesAsRecord]. *)
Definition extractDynamicVariablesAsRecord (text : string)
  : JsObject.t ParamSpec :=
  JsObject.assign []
    (map (fun v => (v, {| paramType := "string"; paramRequired := Some true |}))
       (extractDynamicVariables text)).

(** [convertSchemaToParams]; [None] is a [null] or [undefined] schema. *)
Definition convertSchemaToParams (schema : option (JsObject.t ParamSpec))
  : JsObject.t ParamSpec :=
  match schema with
  | None => []
  | Some fields =>
      fold_left
        (fun acc kv =>
           JsObject.set acc (fst kv)
             {| paramType := paramType (snd kv);
                paramRequired :=
                  Some match paramRequired (snd kv) with
                       | Some true => true
                       | _ => false
                       end |})
        fields []
  end.

(** A name that a placeholder can hold: not empty, no brace and no white
    space. *)
Fixpoint plainRun (s : string) : bool :=
  match s with
  | EmptyString => true
  | String c rest => negb (breaksName s) && plainRun rest
  end.

Definition plainName (v : string) : bool :=
  negb (String.eqb v "") && plainRun v.

Definition placeholder (v : string) : string := "{{" ++ v ++ "}}".

(** The description that [convertSchemaToParams] writes for a field:
    [required] is always a boolean. *)
Definition normalized (p : ParamSpec) : ParamSpec :=
  {| paramType := paramType p;
     paramRequired :=
       Some match paramRequired p with
            | Some true => true
            | _ => false
            end |}.

Definition requiredString : ParamSpec :=
  {| paramType := "string"; paramRequired := Some true |}.

(** ** Sample values *)

(** The part of a schema field that sample generation reads: the type tag,
    the [properties] of an object and the [items] of an array, each of them
    present or not. *)
Inductive FieldSchema : Type :=
| Field (type : string)
        (properties : option (list (string * FieldSchema)))
        (items : option FieldSchema).

(** [generateSampleValue]. *)
Fixpoint generateSampleValue (fieldSchema : FieldSchema) : value :=
  match fieldSchema with
  | Field type properties items =>
      if String.eqb type "string" then VStr ("sample_" ++ type ++ "_value")
      else if String.eqb type "number" then VNum 42
      else if String.eqb type "boolean" then VBool true
      else if String.eqb type "array" then
        match items with
        | Some item => VArr [generateSampleValue item]
        | None => VArr [VStr "sample_array_item"]
        end
      else if String.eqb type "object" then
        match properties with
        | Some props =>
            VObj
              (fold_left
                 (fun obj kv =>
                    JsObject.set obj (fst kv) (generateSampleValue (snd kv)))
                 props [])
        | None => VObj [("sample_key", VStr "sample_value")]
        end
      else if String.eqb type "any" then VStr "sample_any_value"
      else VStr "sample_value"
  end.

(** A node's configuration data, as far as [generateSampleOutput] reads it:
    the optional [inputSchema], the optional [template] text and, by name,
    the other properties. *)
Record NodeData : Type := mkNodeData {
  inputSchema : option (JsObject.t FieldSchema);
  template : option string;
  otherFields : JsObject.t value
}.

(** [hasStringField] followed by [getStringField]. *)
Definition getStringField (data : NodeData) (field : string) : option string :=
  match JsObject.get (otherFields data) field with
  | Some (VStr s) => Some s
  | _ => None
  end.

(** The names that a plain object answers to without a property of its
    own: the members of [Object.prototype], every one of them truthy. *)
Definition inheritedNames : list string :=
  [ "__proto__"; "constructor"; "hasOwnProperty"; "isPrototypeOf";
    "propertyIsEnumerable"; "toLocaleString"; "toString"; "valueOf";
    "__defineGetter__"; "__defineSetter__"; "__lookupGetter__";
    "__lookupSetter__" ].

Definition inherited (name : string) : bool := set_has inheritedNames name.

(** [!output[variable]]: the lookup falls back on the prototype, so that an
    inherited name is never lacking. *)
Definition lacks (out : JsObject.t value) (variable : string) : bool :=
  match JsObject.get out variable with
  | Some v => negb (truthy v)
  | None => negb (inherited variable)
  end.

(** The loop over the variables extracted from one text. *)
Definition addVariables (text : string) (out : JsObject.t value)
  : JsObject.t value :=
  fold_left
    (fun acc variable =>
       if lacks acc variable
       then JsObject.set acc variable
              (generateSampleValue (Field "string" None None))
       else acc)
    (extractDynamicVariables text) out.

Definition textFields : list string :=
  [ "message"; "body"; "subject"; "description"; "query"; "code";
    "pythonScript" ].

(** [generateSampleOutput]. *)
Definition generateSampleOutput (data : NodeData) : JsObject.t value :=
  let fromSchema :=
    match inputSchema data with
    | Some schema =>
        fold_left
          (fun out kv =>
             JsObject.set out (fst kv) (generateSampleValue (snd kv)))
          schema []
    | None => []
    end in
  let fromTemplate :=
    match template data with
    | Some text =>
        if String.eqb text "" then fromSchema else addVariables text fromSchema
    | None => fromSchema
    end in
  fold_left
    (fun out field =>
       match getStringField data field with
       | Some textValue =>
           if String.eqb textValue "" then out else addVariables textValue out
       | None => out
       end)
    textFields fromTemplate.

(** The texts in which [generateSampleOutput] looks for variables. *)
Definition variableTexts (data : NodeData) : list string :=
  match template data with Some text => [text] | None => [] end
  ++ concat
       (map
          (fun field =>
             match getStringField data field with
             | Some t => [t]
             | None => []
             end)
          textFields).

Definition mailNodeData : NodeData :=
  {| inputSchema :=
       Some [ ("to", Field "string" None None);
              ("count", Field "number" None None);
              ("tags", Field "array" (Some []) (Some (Field "string" None None))) ];
     template := Some "Dear {{name}}, {{count}} items for {{to}}";
     otherFields :=
       [ ("subject", VStr "About {{topic}}, {{toString}}");
         ("body", VNum 3);
         ("label", VStr "{{hidden}}") ] |}.

(** The fields of the input schema, none when there is no schema. *)
Definition schemaFields (data : NodeData) : JsObject.t FieldSchema :=
  match inputSchema data with
  | Some schema => schema
  | None => []
  end.

(** Some text of the node mentions the variable. *)
Definition mentioned (data : NodeData) (variable : string) : bool :=
  existsb (fun text => set_has (extractDynamicVariables text) variable)
    (variableTexts data).

(** Every property of the object is truthy. *)
Definition allTruthy (out : JsObject.t value) : Prop :=
  forall k v, JsObject.get out k = Some v -> truthy v = true.

(** ** Paths into available data *)

(** [path.split(".")]. *)
Fixpoint splitDots (s : string) : list string :=
  match s with
  | EmptyString => [EmptyString]
  | String c rest =>
      if Ascii.eqb c "."
      then EmptyString :: splitDots rest
      else match splitDots rest with
           | segment :: others => String c segment :: others
           | [] => [String c EmptyString]
           end
  end.

(** [key in current] and [current[key]] for an object or an array: the
    property when there is one.  An array has its elements and [length]. *)
Definition property (current : value) (key : string) : option value :=
  match current with
  | VObj fields => JsObject.get fields key
  | VArr items =>
      match JsString.array_index key with
      | Some i => nth_error items (N.to_nat i)
      | None =>
          if String.eqb key "length"
          then Some (VNum (num_of_nat (length items))) else None
      end
  | _ => None
  end.

Definition isObjectLike (v : value) : bool :=
  truthy v && String.eqb (typeofValue v) "object".

(** The loop of [getValueFromPath] over the keys. *)
Fixpoint walkPath (keys : list string) (current : value) : value :=
  match keys with
  | [] => current
  | key :: rest =>
      if isObjectLike current then
        match property current key with
        | Some next => walkPath rest next
        | None => VUndefined
        end
      else VUndefined
  end.

(** [getValueFromPath]. *)
Definition getValueFromPath (obj : value) (path : string) : value :=
  if negb (truthy obj) || String.eqb path "" then VUndefined
  else walkPath (splitDots path) obj.

Definition dotFree (s : string) : bool :=
  forallb (fun c => negb (Ascii.eqb c ".")) (list_ascii_of_string s).

(** ** The default template of the aggregator dialog *)

(** The [directSources] of the dialog: the sources of the edges into the
    node, one entry for each edge. *)
Definition directSources (edges : list Flow.Edge.t) (nodeId : string)
  : list string :=
  map Flow.Edge.source
    (filter (fun e => String.eqb (Flow.Edge.target e) nodeId) edges).

(** The [autoTemplate] of the dialog. *)
Definition autoTemplate (edges : list Flow.Edge.t) (nodeId : string) : string :=
  match directSources edges nodeId with
  | [] => ""
  | sources =>
      JsString.join ", "
        (map (fun id => "{{node_outputs." ++ id ++ "}}") sources)
  end.

Definition outputAddress (id : string) : string := "node_outputs." ++ id.


(** ** Text of a value for an input field *)

Section ValueToString.

(** The two built-ins of the platform: [JSON.stringify] with an indentation
    of two, which returns the text or throws, and the text of a number. *)
Variable JSON_stringify : value -> option string.
Variable numberToString : float -> string.

(** [String(value)]. *)
Fixpoint toText (v : value) : string :=
  match v with
  | VUndefined => "undefined"
  | VNull => "null"
  | VBool true => "true"
  | VBool false => "false"
  | VNum x => numberToString x
  | VStr s => s
  | VArr items =>
      JsString.join ","
        (map
           (fun item =>
              match item with
              | VUndefined | VNull => ""
              | _ => toText item
              end)
           items)
  | VObj _ => "[object Object]"
  end.

(** [valueToString]. *)
Definition valueToString (v : value) (type : SchemaType) : string :=
  match v with
  | VNull | VUndefined => ""
  | _ =>
      match type with
      | TObject | TArray =>
          match JSON_stringify v with
          | Some text => text
          | None => toText v
          end
      | _ => toText v
      end
  end.

End ValueToString.
(** * Properties *)

(** ** Induction on values *)


(** ** Objects *)

Module JsObjectFacts.
Import JsObject.

Lemma get_set_same {A} (o : t A) k v : get (set o k v) k = Some v.
Proof.
  induction o as [ | [k' v'] rest IH ]; simpl.
  - now rewrite String.eqb_refl.
  - destruct (String.eqb k k') eqn:E; simpl.
    + now rewrite String.eqb_refl.
    + destruct (precedes k k'); simpl.
      * now rewrite String.eqb_refl.
      * now rewrite E.
Qed.

Lemma get_set_other {A} (o : t A) k k' v :
  String.eqb k' k = false -> get (set o k v) k' = get o k'.
Proof.
  intros Hne.
  induction o as [ | [k0 v0] rest IH ]; simpl.
  - now rewrite Hne.
  - destruct (String.eqb k k0) eqn:E; simpl.
    + apply String.eqb_eq in E. subst k0. now rewrite Hne.
    + destruct (precedes k k0); simpl.
      * now rewrite Hne.
      * now rewrite IH.
Qed.

Lemma keys_set {A} (o : t A) k v k' :
  In k' (keys (set o k v)) -> k' = k \/ In k' (keys o).
Proof.
  unfold keys.
  induction o as [ | [k0 v0] rest IH ]; simpl.
  - intros [H | []]; auto.
  - destruct (String.eqb k k0) eqn:E; simpl.
    + intros [H | H]; auto.
    + destruct (precedes k k0); simpl.
      * intros [H | [H | H]]; auto.
      * intros [H | H]; auto. destruct (IH H); auto.
Qed.

(** On an enumeration order, a property that belongs after all the
    others is appended. *)
Lemma set_last {A} (o : t A) k v :
  forallb (fun k' => negb (String.eqb k k') && negb (precedes k k')) (keys o)
  = true ->
  set o k v = (o ++ [(k, v)])%list.
Proof.
  unfold keys.
  induction o as [ | [k' v'] rest IH ]; simpl; intros H.
  - reflexivity.
  - apply andb_prop in H as [H1 H2].
    apply andb_prop in H1 as [Hk Hp].
    apply negb_true_iff in Hk, Hp.
    rewrite Hk, Hp. f_equal. now apply IH.
Qed.

Lemma ordered_keys_middle l1 k l2 :
  ordered_keys (l1 ++ k :: l2) = true ->
  forallb (fun k' => negb (String.eqb k k') && negb (precedes k k')) l1 = true.
Proof.
  induction l1 as [ | a l1 IH ]; simpl; intros H.
  - reflexivity.
  - apply andb_prop in H as [H1 H2].
    rewrite forallb_app in H1. apply andb_prop in H1 as [_ H1].
    simpl in H1. apply andb_prop in H1 as [H1 _].
    rewrite H1. simpl. now apply IH.
Qed.

(** Rebuilding an object property by property keeps the enumeration
    order. *)
Lemma rebuild_ordered {A B} (h : string * A -> B) (o : t A) (acc : t B) :
  ordered_keys (keys acc ++ keys o) = true ->
  fold_left (fun result kv => set result (fst kv) (h kv)) o acc
  = (acc ++ map (fun kv => (fst kv, h kv)) o)%list.
Proof.
  revert acc.
  induction o as [ | [k v] rest IH ]; simpl; intros acc H.
  - now rewrite app_nil_r.
  - rewrite set_last by (eapply ordered_keys_middle; exact H).
    rewrite IH.
    + now rewrite <- app_assoc.
    + unfold keys in *. rewrite map_app. simpl. now rewrite <- app_assoc.
Qed.

End JsObjectFacts.

(** ** Compaction against its reference *)







(** ** Signatures under compaction *)







(** ** Enumeration order is kept by property writes *)

Module JsOrderFacts.
Import JsObject JsObjectFacts.

Lemma precedes_irrefl_eq k k' :
  precedes k k' = true -> String.eqb k' k = false.
Proof.
  unfold precedes. intros H.
  destruct (String.eqb k' k) eqn:E; [ | reflexivity ].
  apply String.eqb_eq in E. subst k'.
  destruct (JsString.array_index k); [ | discriminate ].
  apply N.ltb_lt in H. lia.
Qed.

Lemma precedes_asym k k' : precedes k k' = true -> precedes k' k = false.
Proof.
  unfold precedes.
  destruct (JsString.array_index k), (JsString.array_index k');
    try discriminate; try reflexivity.
  intros H. apply N.ltb_lt in H. apply N.ltb_ge. lia.
Qed.

(** What comes after [k'] also comes after a name that precedes [k']. *)
Lemma precedes_later k k' k'' :
  precedes k k' = true ->
  String.eqb k'' k' = false -> precedes k'' k' = false ->
  String.eqb k'' k = false /\ precedes k'' k = false.
Proof.
  unfold precedes. intros H Hne Hp.
  destruct (String.eqb k'' k) eqn:E.
  - apply String.eqb_eq in E. subst k''. rewrite H in Hp. discriminate.
  - split; [ reflexivity | ].
    destruct (JsString.array_index k) as [i | ]; [ | discriminate ].
    destruct (JsString.array_index k'') as [i'' | ]; [ | reflexivity ].
    destruct (JsString.array_index k') as [i' | ]; [ | discriminate ].
    apply N.ltb_lt in H. apply N.ltb_ge in Hp. apply N.ltb_ge. lia.
Qed.

Lemma set_ordered {A} (o : t A) k v :
  ordered o = true -> ordered (set o k v) = true.
Proof.
  unfold ordered, keys.
  induction o as [ | [k' v'] rest IH ]; intros H.
  - reflexivity.
  - cbn [map fst ordered_keys] in H.
    apply andb_prop in H as [Hhead Hrest].
    cbn [set].
    destruct (String.eqb k k') eqn:E.
    + apply String.eqb_eq in E. subst k'.
      cbn [map fst ordered_keys]. now rewrite Hhead, Hrest.
    + destruct (precedes k k') eqn:P.
      * cbn [map fst ordered_keys forallb].
        rewrite (precedes_irrefl_eq _ _ P), (precedes_asym _ _ P).
        rewrite Hhead, Hrest. cbn [negb andb].
        rewrite andb_true_r.
        apply forallb_forall. intros k'' Hin.
        rewrite forallb_forall in Hhead. specialize (Hhead _ Hin).
        apply andb_prop in Hhead as [H1 H2].
        apply negb_true_iff in H1, H2.
        destruct (precedes_later _ _ _ P H1 H2) as [-> ->]. reflexivity.
      * cbn [map fst ordered_keys].
        rewrite (IH Hrest), andb_true_r.
        apply forallb_forall. intros k'' Hin.
        apply (keys_set rest k v) in Hin as [-> | Hin].
        -- now rewrite E, P.
        -- rewrite forallb_forall in Hhead. now apply Hhead.
Qed.

Lemma assign_ordered {A} (props base : t A) :
  ordered base = true -> ordered (assign base props) = true.
Proof.
  unfold assign. revert base.
  induction props as [ | [k v] rest IH ]; intros base H; simpl.
  - exact H.
  - apply IH. now apply set_ordered.
Qed.

Lemma ordered_head_fresh k ks :
  ordered_keys (k :: ks) = true -> ~ In k ks.
Proof.
  cbn [ordered_keys]. intros H Hin.
  apply andb_prop in H as [H _].
  rewrite forallb_forall in H. specialize (H _ Hin).
  now rewrite String.eqb_refl in H.
Qed.

End JsOrderFacts.

(** ** The aggregates of the store *)

Lemma lastWrite_absent props k :
  ~ In k (JsObject.keys props) -> lastWrite props k = None.
Proof.
  unfold JsObject.keys.
  induction props as [ | [k' v] rest IH ]; simpl; intros H.
  - reflexivity.
  - rewrite IH by tauto.
    destruct (String.eqb k k') eqn:E; [ | reflexivity ].
    apply String.eqb_eq in E. exfalso. apply H. left. congruence.
Qed.

Lemma lastWrite_ordered props k :
  JsObject.ordered props = true -> lastWrite props k = JsObject.get props k.
Proof.
  unfold JsObject.ordered.
  induction props as [ | [k' v] rest IH ]; intros H.
  - reflexivity.
  - cbn [lastWrite JsObject.get].
    destruct (String.eqb k k') eqn:E.
    + apply String.eqb_eq in E. subst k'.
      rewrite lastWrite_absent; [ reflexivity | ].
      now apply JsOrderFacts.ordered_head_fresh.
    + simpl in H. apply andb_prop in H as [_ H].
      rewrite IH by exact H.
      now destruct (JsObject.get rest k).
Qed.

Lemma lastWrite_app p q k :
  lastWrite (p ++ q) k
  = match lastWrite q k with Some w => Some w | None => lastWrite p k end.
Proof.
  induction p as [ | [k' v] rest IH ]; simpl.
  - now destruct (lastWrite q k).
  - rewrite IH. now destruct (lastWrite q k).
Qed.

Lemma get_assign props : forall base k,
  JsObject.get (JsObject.assign base props) k
  = match lastWrite props k with
    | Some w => Some w
    | None => JsObject.get base k
    end.
Proof.
  unfold JsObject.assign.
  induction props as [ | [k' v] rest IH ]; intros base k; simpl.
  - reflexivity.
  - rewrite IH.
    destruct (lastWrite rest k); [ reflexivity | ].
    destruct (String.eqb k k') eqn:E.
    + apply String.eqb_eq in E. subst k'.
      apply JsObjectFacts.get_set_same.
    + now apply JsObjectFacts.get_set_other.
Qed.

Lemma spread_ordered a b :
  JsObject.ordered (ownEntries (spread a b)) = true.
Proof.
  unfold spread. cbn [ownEntries].
  do 2 apply JsOrderFacts.assign_ordered. reflexivity.
Qed.

Lemma get_spread acc b k :
  JsObject.ordered acc = true ->
  JsObject.get (ownEntries (spread (VObj acc) b)) k
  = lastWrite (acc ++ ownEntries b) k.
Proof.
  intros H. unfold spread. cbn [ownEntries].
  rewrite !get_assign, lastWrite_app. simpl.
  destruct (lastWrite (ownEntries b) k); [ reflexivity | ].
  destruct (lastWrite acc k); reflexivity.
Qed.

(** Merging is last-write-wins for every key. *)
Lemma get_merge outs : forall acc k,
  JsObject.ordered acc = true ->
  JsObject.get (ownEntries (fold_left spread outs (VObj acc))) k
  = lastWrite (acc ++ concat (map ownEntries outs)) k.
Proof.
  induction outs as [ | b rest IH ]; intros acc k H; simpl.
  - rewrite app_nil_r. symmetry. now apply lastWrite_ordered.
  - pose proof (spread_ordered (VObj acc) b) as Hord.
    remember (spread (VObj acc) b) as next eqn:En.
    assert (Hobj : next = VObj (ownEntries next)) by (subst next; reflexivity).
    rewrite Hobj, IH by exact Hord.
    rewrite app_assoc.
    rewrite (lastWrite_app (ownEntries next)),
      (lastWrite_app (acc ++ ownEntries b)).
    destruct (lastWrite (concat (map ownEntries rest)) k); [ reflexivity | ].
    rewrite (lastWrite_ordered _ k Hord).
    subst next. now apply get_spread.
Qed.

Lemma rebuild_session_replay (results : list NodeExecutionResult) : forall acc,
  fold_left
    (fun acc result =>
       if isChatInput (nodeType result) then spread acc (output result) else acc)
    results acc
  = fold_left spread
      (map output (filter (fun r => isChatInput (nodeType r)) results)) acc.
Proof.
  induction results as [ | r rest IH ]; intros acc; simpl.
  - reflexivity.
  - destruct (isChatInput (nodeType r)); simpl; apply IH.
Qed.

Lemma rebuild_source_replay (results : list NodeExecutionResult) : forall acc,
  fold_left (fun acc result => spread acc (output result)) results acc
  = fold_left spread (map output results) acc.
Proof.
  induction results as [ | r rest IH ]; intros acc; simpl.
  - reflexivity.
  - apply IH.
Qed.

Lemma clear_derivable state nodeId :
  derivable (clearNodeOutput state nodeId).
Proof.
  unfold derivable, clearNodeOutput, replaySession, replaySource, mergeOutputs.
  cbn [session source nodeOutputs].
  split.
  - apply rebuild_session_replay.
  - apply rebuild_source_replay.
Qed.

(** C1, as stated: after a chat input and then a model node have been
    recorded, [source] holds the model's output alone, not the merge of the
    two recorded outputs. *)
Lemma C1_record_breaks_replay :
  ~ derivable (runOps chatThenModel).
Proof.
  unfold derivable. vm_compute. intros [_ H]. discriminate H.
Qed.

(** C1, amended: in the state left by [ClearOutput] (and by [ClearAll])
    [session] and [source] are exactly the replay of [nodeOutputs]: the
    merge of the chat-input outputs and the merge of all outputs, in which
    every key has the value written last.  [RecordOutput] does not replay:
    it sets [source] to the newly compacted output alone and [session] to
    that output for a chat-input node, leaving it untouched otherwise. *)
Theorem C1_aggregates_replayed_by_clear :
  forall state nodeId,
    derivable (clearNodeOutput state nodeId)
    /\ derivable clearAllOutputs
    /\ (forall k,
          JsObject.get (ownEntries (source (clearNodeOutput state nodeId))) k
          = lastWrite (replayWrites (nodeOutputs (clearNodeOutput state nodeId))) k)
    /\ (forall out type name now,
          source (updateNodeOutput state nodeId out type name now)
          = optimizeOutputForStorage 2 out
          /\ session (updateNodeOutput state nodeId out type name now)
             = if isChatInput type then optimizeOutputForStorage 2 out
               else session state).
Proof.
  intros state nodeId.
  split; [ apply clear_derivable | ].
  split; [ split; reflexivity | ].
  split.
  - intros k.
    destruct (clear_derivable state nodeId) as [_ ->].
    unfold replaySource, mergeOutputs, replayWrites.
    rewrite get_merge by reflexivity.
    now rewrite map_map.
  - intros out type name now. split; reflexivity.
Qed.

(** C5, as stated: with a chat input recorded before a model node, clearing
    the chat input and recording it again leaves [source] at the chat
    output, while before the clear it was the model's output. *)
Lemma C5_clear_record_changes_source :
  getNodeOutput (runOps chatThenModel) "chat-1" <> None
  /\ ~ reproducesAggregates (runOps chatThenModel) "chat-1"
         chatOutput "chatInputNode" "Chat" 3000.
Proof.
  split.
  - vm_compute. intros H. discriminate H.
  - unfold reproducesAggregates. vm_compute. intros [_ H]. discriminate H.
Qed.

(** C5, amended: when the node cleared is the one whose output was recorded
    last, [ClearOutput] followed by the same [RecordOutput] gives back the
    pre-clear [source]; it gives back the pre-clear [session] when the node
    is a chat input, and otherwise leaves as [session] the replay of the
    remaining chat-input outputs. *)
Theorem C5_clear_record_after_last_write :
  forall state nodeId out type name now now',
    let recorded := updateNodeOutput state nodeId out type name now in
    let again :=
      updateNodeOutput (clearNodeOutput recorded nodeId)
        nodeId out type name now' in
    source again = source recorded
    /\ session again
       = if isChatInput type then session recorded
         else replaySession (JsObject.delete (nodeOutputs recorded) nodeId).
Proof.
  intros state nodeId out type name now now'. cbv zeta.
  split; [ reflexivity | ].
  cbn [updateNodeOutput session].
  destruct (isChatInput type); [ reflexivity | ].
  apply (clear_derivable
           (updateNodeOutput state nodeId out type name now) nodeId).
Qed.

(** ** The predecessor search *)

Lemma set_has_In s x : set_has s x = true <-> In x s.
Proof.
  unfold set_has. rewrite existsb_exists. split.
  - intros [y [Hy E]]. apply String.eqb_eq in E. now subst.
  - intros H. exists x. split; [ exact H | apply String.eqb_refl ].
Qed.

Lemma set_has_not_In s x : set_has s x = false <-> ~ In x s.
Proof.
  rewrite <- set_has_In. destruct (set_has s x); split; congruence.
Qed.

Lemma set_add_In s x y : In y (set_add s x) <-> y = x \/ In y s.
Proof.
  unfold set_add. destruct (set_has s x) eqn:E.
  - apply set_has_In in E. split; [ tauto | ]. intros [-> | H]; assumption.
  - rewrite in_app_iff. simpl. split; intros H; intuition congruence.
Qed.

Lemma set_add_NoDup s x : NoDup s -> NoDup (set_add s x).
Proof.
  unfold set_add. intros H. destruct (set_has s x) eqn:E; [ exact H | ].
  apply set_has_not_In in E.
  apply NoDup_app; [ exact H | repeat constructor; simpl; tauto | ].
  intros y Hy [<- | []]. contradiction.
Qed.

Lemma filter_length_weaken {A} (p q : A -> bool) (l : list A) :
  (forall x, In x l -> p x = true -> q x = true) ->
  (length (filter p l) <= length (filter q l))%nat.
Proof.
  induction l as [ | a l IH ]; simpl; intros H.
  - lia.
  - assert (IH' := IH (fun x Hx => H x (or_intror Hx))).
    destruct (p a) eqn:Ep.
    + rewrite (H a (or_introl eq_refl) Ep). simpl. lia.
    + destruct (q a); simpl; lia.
Qed.

Lemma filter_length_strict {A} (p q : A -> bool) (l : list A) (a : A) :
  In a l -> p a = false -> q a = true ->
  (forall x, In x l -> p x = true -> q x = true) ->
  (length (filter p l) < length (filter q l))%nat.
Proof.
  induction l as [ | b l IH ]; simpl; intros Hin Hpa Hqa H.
  - contradiction.
  - assert (Hle := filter_length_weaken p q l (fun x Hx => H x (or_intror Hx))).
    destruct Hin as [-> | Hin].
    + rewrite Hpa, Hqa. simpl. lia.
    + assert (IH' := IH Hin Hpa Hqa (fun x Hx => H x (or_intror Hx))).
      destruct (p b) eqn:Ep.
      * rewrite (H b (or_introl eq_refl) Ep). simpl. lia.
      * destruct (q b); simpl; lia.
Qed.

Lemma unvisited_mono universe seen seen' :
  incl seen seen' -> (unvisited universe seen' <= unvisited universe seen)%nat.
Proof.
  intros H. unfold unvisited. apply filter_length_weaken.
  intros x _ Hx. apply negb_true_iff in Hx. apply negb_true_iff.
  apply set_has_not_In. apply set_has_not_In in Hx. auto.
Qed.

Lemma unvisited_add universe seen n :
  In n universe -> ~ In n seen ->
  (unvisited universe (set_add seen n) < unvisited universe seen)%nat.
Proof.
  intros Hin Hnew. unfold unvisited.
  apply filter_length_strict with (a := n).
  - exact Hin.
  - apply negb_false_iff. apply set_has_In. apply set_add_In. now left.
  - apply negb_true_iff. now apply set_has_not_In.
  - intros x _ Hx. apply negb_true_iff in Hx. apply negb_true_iff.
    apply set_has_not_In. apply set_has_not_In in Hx.
    intros H. apply Hx. apply set_add_In. now right.
Qed.

Section Search.

Variable edges : list Flow.Edge.t.

Lemma dfs_unfold fuel nodeId st :
  dfs (S fuel) edges nodeId st
  = if set_has (visited st) nodeId then Ok st
    else fold_left (visitEdge (dfs fuel edges) nodeId) edges
           (Ok {| predecessors := predecessors st;
                  visited := set_add (visited st) nodeId |}).
Proof. reflexivity. Qed.

Lemma fold_visit_stuck visit nodeId (es : list Flow.Edge.t)
  (r : outcome SearchState) :
  (forall st, r <> Ok st) ->
  fold_left (visitEdge visit nodeId) es r = r.
Proof.
  intros H. induction es as [ | e es IH ]; simpl; [ reflexivity | ].
  destruct r as [ st | x | ]; [ now destruct (H st) | exact IH | exact IH ].
Qed.

Lemma fold_visit_ok visit nodeId (es : list Flow.Edge.t)
  (r : outcome SearchState) st' :
  fold_left (visitEdge visit nodeId) es r = Ok st' -> exists st, r = Ok st.
Proof.
  intros H. destruct r as [ st | x | ].
  - now exists st.
  - rewrite fold_visit_stuck in H; congruence.
  - rewrite fold_visit_stuck in H; congruence.
Qed.

(** *** Termination *)

Section Termination.

Variable universe : list string.
Hypothesis sources_in_universe :
  forall e, In e edges -> In (Flow.Edge.source e) universe.

Lemma dfs_returns : forall fuel nodeId st,
  In nodeId universe ->
  (unvisited universe (visited st) < fuel)%nat ->
  exists st',
    dfs fuel edges nodeId st = Ok st' /\ incl (visited st) (visited st').
Proof.
  induction fuel as [ | fuel IH ]; intros nodeId st Hin Hfuel.
  - lia.
  - rewrite dfs_unfold.
    destruct (set_has (visited st) nodeId) eqn:Eseen.
    + exists st. split; [ reflexivity | apply incl_refl ].
    + apply set_has_not_In in Eseen.
      pose proof (unvisited_add universe (visited st) nodeId Hin Eseen)
        as Hless.
      assert (Hloop : forall es acc,
                 incl es edges ->
                 (unvisited universe (visited acc) < fuel)%nat ->
                 exists st',
                   fold_left (visitEdge (dfs fuel edges) nodeId) es (Ok acc)
                   = Ok st'
                   /\ incl (visited acc) (visited st')).
      { induction es as [ | e es IHes ]; intros acc Hes Hacc.
        - exists acc. split; [ reflexivity | apply incl_refl ].
        - cbn [fold_left visitEdge bind].
          assert (He : In e edges) by (apply Hes; now left).
          assert (Hes' : incl es edges)
            by (intros x Hx; apply Hes; now right).
          destruct (String.eqb (Flow.Edge.target e) nodeId).
          + destruct (IH (Flow.Edge.source e)
                        {| predecessors :=
                             set_add (predecessors acc) (Flow.Edge.source e);
                           visited := visited acc |})
              as [mid [Hmid Hinc]].
            * now apply sources_in_universe.
            * exact Hacc.
            * rewrite Hmid. cbn [visited] in Hinc.
              destruct (IHes mid Hes') as [st' [Hst' Hinc']].
              -- pose proof (unvisited_mono universe _ _ Hinc). lia.
              -- exists st'. split; [ exact Hst' | ].
                 eapply incl_tran; eassumption.
          + now apply IHes. }
      destruct (Hloop edges
                  {| predecessors := predecessors st;
                     visited := set_add (visited st) nodeId |})
        as [st' [Hst' Hinc]].
      * apply incl_refl.
      * cbn [visited]. lia.
      * exists st'. split; [ exact Hst' | ].
        cbn [visited] in Hinc. intros x Hx. apply Hinc.
        apply set_add_In. now right.
Qed.

End Termination.

Lemma findPredecessors_returns target :
  exists st,
    dfs (searchFuel edges) edges target {| predecessors := []; visited := [] |}
    = Ok st.
Proof.
  destruct (dfs_returns (searchUniverse edges target)) with
    (fuel := searchFuel edges) (nodeId := target)
    (st := {| predecessors := []; visited := [] |})
    as [st [Hst _]].
  - intros e He. right. now apply in_map.
  - now left.
  - unfold unvisited, searchUniverse, searchFuel. cbn [visited].
    eapply Nat.le_lt_trans; [ apply List.filter_length_le | ].
    simpl. rewrite length_map. lia.
  - now exists st.
Qed.

(** *** What a search that returns has found *)

Section Correctness.

Variable target : string.

Lemma grows_refl st : grows st st.
Proof. split; apply incl_refl. Qed.

Lemma grows_trans a b c : grows a b -> grows b c -> grows a c.
Proof.
  intros [H1 H2] [H3 H4]. split; eapply incl_tran; eassumption.
Qed.

Lemma closedUnder_grows st st' v :
  grows st st' -> closedUnder edges st v -> closedUnder edges st' v.
Proof.
  intros [Hv Hp] H e He Ht. destruct (H e He Ht) as [H1 H2].
  split; [ now apply Hp | now apply Hv ].
Qed.

Lemma dfs_searched : forall fuel nodeId st st',
  dfs fuel edges nodeId st = Ok st' ->
  searched edges target nodeId st st' /\ In nodeId (visited st').
Proof.
  induction fuel as [ | fuel IH ]; intros nodeId st st' Hrun.
  - discriminate Hrun.
  - rewrite dfs_unfold in Hrun.
    destruct (set_has (visited st) nodeId) eqn:Eseen.
    + injection Hrun as <-. apply set_has_In in Eseen.
      split; [ | exact Eseen ].
      split; [ apply grows_refl | ].
      split; [ auto | ]. split; [ auto | ]. intros v Hv. now left.
    + assert (Hloop : forall es acc last,
                 incl es edges ->
                 fold_left (visitEdge (dfs fuel edges) nodeId) es (Ok acc)
                 = Ok last ->
                 searched edges target nodeId acc last
                 /\ (forall e, In e es -> Flow.Edge.target e = nodeId ->
                       In (Flow.Edge.source e) (predecessors last)
                       /\ In (Flow.Edge.source e) (visited last))).
      { induction es as [ | e es IHes ]; intros acc last Hes Hfold.
        - injection Hfold as <-.
          split; [ | intros e [] ].
          split; [ apply grows_refl | ].
          split; [ auto | ]. split; [ auto | ]. intros v Hv. now left.
        - cbn [fold_left visitEdge bind] in Hfold.
          assert (He : In e edges) by (apply Hes; now left).
          assert (Hes' : incl es edges)
            by (intros x Hx; apply Hes; now right).
          destruct (String.eqb (Flow.Edge.target e) nodeId) eqn:Et.
          + apply String.eqb_eq in Et.
            destruct (fold_visit_ok _ _ _ _ _ Hfold) as [mid Hmid].
            rewrite Hmid in Hfold.
            apply IH in Hmid as [[Hg1 [Hn1 [Hs1 Hc1]]] Hin1].
            destruct (IHes mid last Hes' Hfold)
              as [[Hg2 [Hn2 [Hs2 Hc2]]] Hedges].
            assert (Hg0 : grows acc
                            {| predecessors :=
                                 set_add (predecessors acc) (Flow.Edge.source e);
                               visited := visited acc |}).
            { split; cbn [visited predecessors]; [ apply incl_refl | ].
              intros x Hx. apply set_add_In. now right. }
            split.
            * split; [ eauto using grows_trans | ].
              split.
              { intros Hnd. apply Hn2, Hn1. cbn [predecessors].
                now apply set_add_NoDup. }
              split.
              { intros Hnode Hsound. apply Hs2; [ exact Hnode | ].
                apply Hs1.
                - right. destruct Hnode as [-> | Hup].
                  + now apply upstream_direct.
                  + apply upstream_step; [ exact He | ]. now rewrite Et.
                - intros p Hp. cbn [predecessors] in Hp.
                  apply set_add_In in Hp as [-> | Hp]; [ | now apply Hsound ].
                  destruct Hnode as [-> | Hup].
                  + now apply upstream_direct.
                  + apply upstream_step; [ exact He | ]. now rewrite Et. }
              intros v Hv. destruct (Hc2 v Hv) as [Hmidv | Hclosed];
                [ | now right ].
              destruct (Hc1 v Hmidv) as [Haccv | Hclosed];
                [ now left | right ].
              eapply closedUnder_grows; eassumption.
            * intros e' [<- | He'] Ht'.
              -- destruct Hg2 as [Hv2 Hp2]. destruct Hg1 as [Hv1 Hp1].
                 split.
                 ++ apply Hp2, Hp1. cbn [predecessors].
                    apply set_add_In. now left.
                 ++ now apply Hv2.
              -- now apply Hedges.
          + destruct (IHes acc last Hes' Hfold) as [Hs Hedges].
            split; [ exact Hs | ].
            intros e' [<- | He'] Ht'.
            * rewrite Ht', String.eqb_refl in Et. discriminate Et.
            * now apply Hedges. }
      destruct (Hloop edges _ st' (incl_refl _) Hrun)
        as [[Hg [Hn [Hs Hc]]] Hedges].
      assert (Hg0 : grows st
                      {| predecessors := predecessors st;
                         visited := set_add (visited st) nodeId |}).
      { split; cbn [visited predecessors]; [ | apply incl_refl ].
        intros x Hx. apply set_add_In. now right. }
      assert (Hin : In nodeId (visited st')).
      { destruct Hg as [Hv _]. apply Hv. cbn [visited].
        apply set_add_In. now left. }
      split; [ | exact Hin ].
      split; [ eauto using grows_trans | ].
      split; [ exact Hn | ]. split; [ exact Hs | ].
      intros v Hv. destruct (Hc v Hv) as [Hold | Hclosed]; [ | now right ].
      cbn [visited] in Hold. apply set_add_In in Hold as [-> | Hold].
      * right. intros e He Ht. now apply Hedges.
      * now left.
Qed.

(** The search from the target finds exactly the nodes upstream of it,
    each once. *)
Lemma findPredecessors_upstream :
  exists found,
    findPredecessors edges target = Ok found
    /\ NoDup found
    /\ (forall p, In p found <-> upstream edges target p).
Proof.
  unfold findPredecessors.
  destruct (findPredecessors_returns target) as [st Hst].
  rewrite Hst. cbn [bind]. exists (predecessors st).
  split; [ reflexivity | ].
  apply dfs_searched in Hst as [[Hg [Hn [Hs Hc]]] Hin].
  split; [ apply Hn; constructor | ].
  intros p. split.
  - apply Hs; [ now left | intros q [] ].
  - assert (Hclosed : forall v, In v (visited st) -> closedUnder edges st v).
    { intros v Hv. destruct (Hc v Hv) as [[] | H]. exact H. }
    intros Hup.
    enough (In p (predecessors st) /\ In p (visited st)) by tauto.
    induction Hup as [ e He Ht | e He Hup IHup ].
    + apply (Hclosed target Hin e He Ht).
    + destruct IHup as [_ Hv]. now apply (Hclosed _ Hv e He).
Qed.

End Correctness.

End Search.

(** C2, as stated: on a single node with a self-loop the search returns the
    node itself as its predecessor and raises nothing. *)
Lemma C2_self_loop_returns :
  cycleBehind selfLoop "A"
  /\ findPredecessors selfLoop "A" = Ok ["A"]
  /\ ~ raisesCyclicGraphError selfLoop "A".
Proof.
  assert (Hup : upstream selfLoop "A" "A").
  { apply (upstream_direct selfLoop "A" (connect "A" "A")).
    - now left.
    - reflexivity. }
  split; [ exists "A"; split; [ now left | exact Hup ] | ].
  split; [ reflexivity | ].
  intros [message H]. vm_compute in H. discriminate H.
Qed.

(** C2, amended: on every graph, cyclic or not, the search for the
    transitive predecessors returns (the marks on visited nodes stop it);
    it raises no error, and what it returns lists, each once, exactly the
    nodes from which the target can be reached along one or more edges, so
    a target on a cycle is listed among its own predecessors. *)
Theorem C2_search_returns_upstream_nodes :
  forall edges target,
    exists found,
      findPredecessors edges target = Ok found
      /\ NoDup found
      /\ (forall p, In p found <-> upstream edges target p)
      /\ ~ raisesCyclicGraphError edges target.
Proof.
  intros edges target.
  destruct (findPredecessors_upstream edges target) as [found [Hrun [Hnd Hiff]]].
  exists found. repeat split; try assumption; try (now apply Hiff).
  intros [message H]. rewrite Hrun in H. discriminate H.
Qed.

(** ** The availability resolver *)

Lemma predecessorIdsOf_In found nodeId p :
  In p (predecessorIdsOf found nodeId) <-> In p found /\ p <> nodeId.
Proof.
  unfold predecessorIdsOf. rewrite filter_In, negb_true_iff.
  split; intros [H1 H2]; split; try assumption.
  - intros ->. now rewrite String.eqb_refl in H2.
  - now apply String.eqb_neq.
Qed.

(** The three ways in which the resolver answers. *)
Lemma available_cases state nodes edges nodeId :
  exists found,
    findPredecessors edges nodeId = Ok found
    /\ (forall p, In p (predecessorIdsOf found nodeId)
                  <-> upstream edges nodeId p /\ p <> nodeId)
    /\ getAvailableDataForNode state nodes edges nodeId
       = Ok match predecessorIdsOf found nodeId with
            | [] =>
                if hasType (getNodeById nodes nodeId) "chatInputNode"
                then session state else VNull
            | _ :: _ =>
                availableData (session state)
                  (directSource state (directPredecessors nodes edges nodeId))
                  (collectOutputs state (predecessorIdsOf found nodeId))
            end.
Proof.
  destruct (findPredecessors_upstream edges nodeId) as [found [Hrun [_ Hiff]]].
  exists found. split; [ exact Hrun | ]. split.
  - intros p. rewrite predecessorIdsOf_In, Hiff. reflexivity.
  - unfold getAvailableDataForNode. rewrite Hrun. cbn [bind].
    destruct (predecessorIdsOf found nodeId); cbn [length Nat.eqb andb].
    + now destruct (hasType (getNodeById nodes nodeId) "chatInputNode").
    + reflexivity.
Qed.

Lemma directPredecessors_In nodes edges nodeId p :
  In p (directPredecessors nodes edges nodeId) <->
  (exists e, In e edges /\ Flow.Edge.target e = nodeId /\ Flow.Edge.source e = p)
  /\ keptAsDirect nodes nodeId p = true.
Proof.
  unfold directPredecessors, keptAsDirect.
  rewrite filter_In, in_map_iff.
  split; intros [[e He] Hk]; (split; [ | exact Hk ]); exists e.
  - destruct He as [Hs He]. apply filter_In in He as [He Ht].
    apply String.eqb_eq in Ht. auto.
  - destruct He as [He [Ht Hs]]. split; [ exact Hs | ].
    apply filter_In. split; [ exact He | ]. now apply String.eqb_eq.
Qed.

Lemma directPredecessors_upstream nodes edges nodeId p :
  In p (directPredecessors nodes edges nodeId) -> upstream edges nodeId p.
Proof.
  intros H. apply directPredecessors_In in H as [[e [He [Ht <-]]] _].
  now apply upstream_direct.
Qed.

Lemma get_collectOutputs state ids : forall acc p,
  JsObject.get
    (fold_left
       (fun acc predecessorId =>
          match exposedOutput state predecessorId with
          | Some out => JsObject.set acc predecessorId out
          | None => acc
          end)
       ids acc) p
  = if set_has ids p
    then match exposedOutput state p with
         | Some out => Some out
         | None => JsObject.get acc p
         end
    else JsObject.get acc p.
Proof.
  induction ids as [ | i rest IH ]; intros acc p.
  - reflexivity.
  - cbn [fold_left]. rewrite IH. unfold set_has. cbn [existsb].
    fold (set_has rest p).
    destruct (String.eqb p i) eqn:E; cbn [orb].
    + apply String.eqb_eq in E. subst i.
      destruct (exposedOutput state p) as [out | ] eqn:Eout.
      * rewrite JsObjectFacts.get_set_same. now destruct (set_has rest p).
      * now destruct (set_has rest p).
    + destruct (exposedOutput state i) as [out | ];
        [ rewrite (JsObjectFacts.get_set_other _ _ _ _ E) | ]; reflexivity.
Qed.

(** The object of outputs maps exactly the listed nodes with an exposed
    output, each to that output. *)
Lemma collectOutputs_get state ids p :
  JsObject.get (collectOutputs state ids) p
  = if set_has ids p then exposedOutput state p else None.
Proof.
  unfold collectOutputs. rewrite get_collectOutputs. simpl.
  now destruct (exposedOutput state p).
Qed.

Lemma collectOutputs_none state ids :
  (forall p, In p ids -> exposedOutput state p = None) ->
  collectOutputs state ids = [].
Proof.
  unfold collectOutputs. generalize (@nil (string * value)).
  induction ids as [ | i rest IH ]; intros acc H.
  - reflexivity.
  - cbn [fold_left]. rewrite (H i (or_introl eq_refl)).
    apply IH. intros p Hp. apply H. now right.
Qed.

Lemma exposedOutput_unrecorded state p :
  getNodeOutput state p = None -> exposedOutput state p = None.
Proof.
  unfold getNodeOutput, exposedOutput. now intros ->.
Qed.

(** C7, as stated: a node whose only incoming edge is a self-loop has a
    transitive predecessor, nothing is recorded, and yet the answer is
    [null]. *)
Lemma C7_self_loop_answers_null :
  upstream selfLoop "A" "A"
  /\ (forall p, getNodeOutput initialState p = None)
  /\ getAvailableDataForNode initialState selfLoopNodes selfLoop "A"
     = Ok VNull.
Proof.
  split.
  - apply (upstream_direct selfLoop "A" (connect "A" "A")).
    + now left.
    + reflexivity.
  - split; [ reflexivity | reflexivity ].
Qed.

(** C7, amended: the predecessors that count are those other than the node
    itself.  A node with no such predecessor gets [null], or the store's
    [session] when it is a chat input; a node with such a predecessor, when
    none of the nodes upstream of it has a recorded result, gets the data
    object with empty [source] and [node_outputs], never [null]. *)
Theorem C7_not_found_versus_empty :
  forall state nodes edges nodeId,
    (~ hasOtherPredecessor edges nodeId ->
     getAvailableDataForNode state nodes edges nodeId
     = Ok (if hasType (getNodeById nodes nodeId) "chatInputNode"
           then session state else VNull))
    /\ (hasOtherPredecessor edges nodeId ->
        (forall p, upstream edges nodeId p -> getNodeOutput state p = None) ->
        getAvailableDataForNode state nodes edges nodeId
        = Ok (availableData (session state) (VObj []) [])).
Proof.
  intros state nodes edges nodeId.
  destruct (available_cases state nodes edges nodeId)
    as [found [_ [Hids Hrun]]].
  rewrite Hrun. split.
  - intros Hnone.
    destruct (predecessorIdsOf found nodeId) as [ | p rest ]; [ reflexivity | ].
    exfalso. apply Hnone. exists p. apply Hids. now left.
  - intros [p Hp] Hunrecorded.
    apply Hids in Hp.
    destruct (predecessorIdsOf found nodeId) as [ | q rest ] eqn:E;
      [ contradiction | ].
    rewrite collectOutputs_none.
    + f_equal. f_equal.
      assert (Hdirect : forall d, In d (directPredecessors nodes edges nodeId) ->
                                  exposedOutput state d = None).
      { intros d Hd. apply exposedOutput_unrecorded, Hunrecorded.
        eapply directPredecessors_upstream; eassumption. }
      unfold directSource.
      destruct (directPredecessors nodes edges nodeId) as [ | d [ | d' more ] ].
      * reflexivity.
      * now rewrite (Hdirect d (or_introl eq_refl)).
      * now rewrite collectOutputs_none.
    + intros r Hr. apply exposedOutput_unrecorded, Hunrecorded.
      now apply Hids.
Qed.

Lemma C7_not_found_versus_empty_witness :
  getAvailableDataForNode initialState
    [Flow.Node.make "A" (Some "chatInputNode")] [connect "A" "B"] "A"
  = Ok (session initialState)
  /\ getAvailableDataForNode initialState
       [Flow.Node.make "A" (Some "chatInputNode")] [connect "A" "B"] "B"
     = Ok (availableData (session initialState) (VObj []) []).
Proof.
  split.
  - apply (C7_not_found_versus_empty initialState
             [Flow.Node.make "A" (Some "chatInputNode")] [connect "A" "B"] "A").
    intros [p [Hup Hne]]. apply Hne. clear Hne.
    induction Hup as [ e He Ht | e He Hup IH ].
    + destruct He as [<- | []]. discriminate Ht.
    + destruct He as [<- | []]. reflexivity.
  - apply (C7_not_found_versus_empty initialState
             [Flow.Node.make "A" (Some "chatInputNode")] [connect "A" "B"] "B").
    + exists "A". split; [ | discriminate ].
      apply (upstream_direct _ "B" (connect "A" "B")); [ now left | reflexivity ].
    + intros p _. reflexivity.
Defined.

(** *** Redaction *)

Lemma includes_head c needle hay :
  JsString.includes (String c needle) hay = true ->
  In c (list_ascii_of_string hay).
Proof.
  induction hay as [ | h hay IH ]; simpl.
  - discriminate.
  - intros H. apply orb_prop in H as [H | H].
    + left. destruct (Ascii.ascii_dec c h) as [-> | Hne]; [ reflexivity | ].
      destruct (Ascii.eqb_spec c h); [ congruence | discriminate H ].
    + right. now apply IH.
Qed.

Lemma decimal_digits (d : Decimal.uint) (c : ascii) :
  In c (list_ascii_of_string (NilEmpty.string_of_uint d)) ->
  In c (list_ascii_of_string "0123456789").
Proof.
  induction d; simpl; intros H; try contradiction;
    (destruct H as [<- | H]; [ simpl; tauto | now apply IHd ]).
Qed.

Lemma index_name_plain (i : nat) :
  JsString.includes directInputMarker (JsString.of_nat i) = false.
Proof.
  destruct (JsString.includes directInputMarker (JsString.of_nat i)) eqn:E;
    [ | reflexivity ].
  apply includes_head in E.
  assert (Hdigit : In "s"%char (list_ascii_of_string "0123456789")).
  { unfold JsString.of_nat, NilZero.string_of_uint in E.
    destruct (Nat.to_uint i) eqn:Ei;
      try (rewrite <- Ei in E; now apply decimal_digits in E).
    simpl in E. simpl. tauto. }
  simpl in Hdigit. repeat (destruct Hdigit as [Hdigit | Hdigit]; [ discriminate | ]).
  contradiction.
Qed.

Lemma indexed_from_plain {A} (l : list A) : forall i k,
  In k (JsObject.keys (indexed_from i l)) ->
  JsString.includes directInputMarker k = false.
Proof.
  unfold JsObject.keys.
  induction l as [ | x rest IH ]; simpl; intros i k H.
  - contradiction.
  - destruct H as [<- | H]; [ apply index_name_plain | eapply IH; eassumption ].
Qed.

Lemma filterOutput_redacted (out : value) : redacted (filterOutput out).
Proof.
  unfold redacted.
  destruct out as [ | | b | n | s | items | fields ]; cbn [filterOutput ownEntries];
    try (intros k []); try (intros k; apply indexed_from_plain).
  assert (Hfold : forall props (acc : JsObject.t value),
             (forall k, In k (JsObject.keys acc) ->
                        JsString.includes directInputMarker k = false) ->
             forall k,
               In k (JsObject.keys
                       (fold_left
                          (fun filtered kv =>
                             if negb (JsString.includes directInputMarker (fst kv))
                             then JsObject.set filtered (fst kv) (snd kv)
                             else filtered)
                          props acc)) ->
               JsString.includes directInputMarker k = false).
  { induction props as [ | [k' v'] rest IH ]; intros acc Hacc k; cbn [fold_left].
    - apply Hacc.
    - apply IH. cbn [fst snd].
      destruct (JsString.includes directInputMarker k') eqn:E; cbn [negb].
      + exact Hacc.
      + intros k0 Hk0. apply JsObjectFacts.keys_set in Hk0 as [-> | Hk0];
          [ exact E | now apply Hacc ]. }
  apply Hfold. intros k [].
Qed.

Lemma exposedOutput_redacted state p out :
  exposedOutput state p = Some out -> redacted out.
Proof.
  unfold exposedOutput.
  destruct (JsObject.get (nodeOutputs state) p) as [ r | ]; [ | discriminate ].
  destruct (truthy (output r)); [ | discriminate ].
  intros [= <-]. apply filterOutput_redacted.
Qed.

Lemma set_entries {A} (o : JsObject.t A) k v kv :
  In kv (JsObject.set o k v) -> kv = (k, v) \/ In kv o.
Proof.
  induction o as [ | [k' v'] rest IH ]; simpl.
  - intros [<- | []]. now left.
  - destruct (String.eqb k k').
    + intros [<- | H]; [ now left | right; now right ].
    + destruct (JsObject.precedes k k').
      * intros [<- | H]; [ now left | now right ].
      * intros [<- | H]; [ right; now left | ].
        destruct (IH H); [ now left | right; now right ].
Qed.

Lemma collectOutputs_entries state ids id out :
  In (id, out) (collectOutputs state ids) ->
  In id ids /\ exposedOutput state id = Some out.
Proof.
  unfold collectOutputs.
  assert (Hfold : forall ids acc,
             In (id, out)
               (fold_left
                  (fun acc predecessorId =>
                     match exposedOutput state predecessorId with
                     | Some o => JsObject.set acc predecessorId o
                     | None => acc
                     end)
                  ids acc) ->
             In (id, out) acc \/ (In id ids /\ exposedOutput state id = Some out)).
  { clear ids. induction ids as [ | i rest IH ]; intros acc H; cbn [fold_left] in H.
    - now left.
    - apply IH in H as [H | [H1 H2]].
      + destruct (exposedOutput state i) as [ o | ] eqn:E; [ | now left ].
        apply set_entries in H as [[= -> ->] | H]; [ | now left ].
        right. split; [ now left | exact E ].
      + right. split; [ now right | exact H2 ]. }
  intros H. apply Hfold in H as [[] | H]. exact H.
Qed.

(** C8: whatever the resolver answers, a predecessor output that it exposes
    has no top-level key whose name contains ["session.direct_input"]: each
    output under [node_outputs], the [source] itself when there is a single
    direct predecessor, and each output under [source] otherwise.  (With no
    predecessor other than the node itself the answer is the session or
    [null] and exposes no predecessor output.) *)
Theorem C8_exposed_outputs_redacted :
  forall state nodes edges nodeId,
    (~ hasOtherPredecessor edges nodeId
     /\ getAvailableDataForNode state nodes edges nodeId
        = Ok (if hasType (getNodeById nodes nodeId) "chatInputNode"
              then session state else VNull))
    \/ (exists sourceData outputs,
          getAvailableDataForNode state nodes edges nodeId
          = Ok (availableData (session state) sourceData outputs)
          /\ (forall id out, In (id, out) outputs -> redacted out)
          /\ match directPredecessors nodes edges nodeId with
             | [_] => redacted sourceData
             | _ => forall id out,
                      In (id, out) (ownEntries sourceData) -> redacted out
             end).
Proof.
  intros state nodes edges nodeId.
  destruct (available_cases state nodes edges nodeId)
    as [found [_ [Hids Hrun]]].
  rewrite Hrun.
  destruct (predecessorIdsOf found nodeId) as [ | p rest ] eqn:E.
  - left. split; [ | reflexivity ].
    intros [q Hq]. now apply Hids in Hq.
  - right.
    exists (directSource state (directPredecessors nodes edges nodeId)),
      (collectOutputs state (p :: rest)).
    split; [ reflexivity | ]. split.
    + intros id out H. apply collectOutputs_entries in H as [_ H].
      eapply exposedOutput_redacted; eassumption.
    + unfold directSource.
      destruct (directPredecessors nodes edges nodeId) as [ | d [ | d' more ] ].
      * intros id out [].
      * destruct (exposedOutput state d) as [ out | ] eqn:Eout.
        -- eapply exposedOutput_redacted; eassumption.
        -- intros k [].
      * intros id out H. cbn [ownEntries] in H.
        apply collectOutputs_entries in H as [_ H].
        eapply exposedOutput_redacted; eassumption.
Qed.

Lemma C8_exposed_outputs_redacted_witness :
  exists sourceData outputs,
    getAvailableDataForNode (runOps chatThenModel) chainNodes chainEdges "mail-1"
    = Ok (availableData (session (runOps chatThenModel)) sourceData outputs)
    /\ JsObject.get outputs "chat-1" = Some (VObj [("message", VStr "hello")])
    /\ (forall id out, In (id, out) outputs -> redacted out)
    /\ redacted sourceData.
Proof.
  destruct (C8_exposed_outputs_redacted
              (runOps chatThenModel) chainNodes chainEdges "mail-1")
    as [[_ H] | [sourceData [outputs [H [Houts Hsrc]]]]].
  - vm_compute in H. discriminate H.
  - exists sourceData, outputs.
    split; [ exact H | ]. split; [ | split; [ exact Houts | exact Hsrc ] ].
    vm_compute in H. injection H as _ <-. reflexivity.
Defined.

(** *** Source and node outputs *)







(** ** Typed parsing *)

Section ParseInputFacts.

Variable JSON_parse : string -> option value.
Variable parseFloat : string -> float.

Lemma parse_blank text type :
  blankInput text = true -> parseInputValue JSON_parse parseFloat text type = Ok (VStr text).
Proof.
  unfold parseInputValue, blankInput. now intros ->.
Qed.




Lemma parse_any text :
  parseInputValue JSON_parse parseFloat text TAny
  = Ok (if blankInput text then VStr text
        else match JSON_parse text with
             | Some v => v
             | None =>
                 if negb (PrimFloat.is_nan (parseFloat text))
                 then VNum (parseFloat text)
                 else if String.eqb (lowered text) "true" then VBool true
                 else if String.eqb (lowered text) "false" then VBool false
                 else VStr text
             end).
Proof.
  unfold parseInputValue, blankInput, lowered.
  destruct (String.eqb text "" || String.eqb (JsString.trim text) "");
    [ reflexivity | ].
  cbn [parseByType]. unfold jsonParse.
  destruct (JSON_parse text); [ reflexivity | ]. cbn [try_catch].
  destruct (PrimFloat.is_nan (parseFloat text)); cbn [negb]; [ | reflexivity ].
  destruct (String.eqb (JsString.trim (JsString.toLowerCase text)) "true");
    [ reflexivity | ].
  now destruct (String.eqb (JsString.trim (JsString.toLowerCase text)) "false").
Qed.


End ParseInputFacts.



(** C10: under [any], once JSON and number parsing have failed, only text
    that reads [true] or [false] gives a boolean; ["yes"] and ["no"], which
    [boolean] turns into [true] and [false], come back as the raw text. *)
Theorem C10_any_knows_only_true_false :
  forall (JSON_parse : string -> option value) (parseFloat : string -> float),
    let parse := parseInputValue JSON_parse parseFloat in
    (forall text,
       blankInput text = false ->
       JSON_parse text = None ->
       PrimFloat.is_nan (parseFloat text) = true ->
       parse text TAny
       = Ok (if String.eqb (lowered text) "true" then VBool true
             else if String.eqb (lowered text) "false" then VBool false
             else VStr text))
    /\ parse "yes" TBoolean = Ok (VBool true)
    /\ parse "no" TBoolean = Ok (VBool false)
    /\ (JSON_parse "yes" = None ->
        PrimFloat.is_nan (parseFloat "yes") = true ->
        parse "yes" TAny = Ok (VStr "yes"))
    /\ (JSON_parse "no" = None ->
        PrimFloat.is_nan (parseFloat "no") = true ->
        parse "no" TAny = Ok (VStr "no")).
Proof.
  intros JSON_parse parseFloat parse. subst parse.
  assert (Hany : forall text,
             blankInput text = false ->
             JSON_parse text = None ->
             PrimFloat.is_nan (parseFloat text) = true ->
             parseInputValue JSON_parse parseFloat text TAny
             = Ok (if String.eqb (lowered text) "true" then VBool true
                   else if String.eqb (lowered text) "false" then VBool false
                   else VStr text)).
  { intros text Hb Hj Hn. rewrite parse_any, Hb, Hj, Hn. reflexivity. }
  split; [ exact Hany | ].
  split; [ reflexivity | ].
  split; [ reflexivity | ].
  split; intros Hj Hn; now rewrite Hany.
Qed.

Lemma C10_any_knows_only_true_false_witness :
  parseInputValue noJson noNumber "yes" TBoolean = Ok (VBool true)
  /\ parseInputValue noJson noNumber "yes" TAny = Ok (VStr "yes")
  /\ parseInputValue noJson noNumber "no" TAny = Ok (VStr "no").
Proof.
  destruct (C10_any_knows_only_true_false noJson noNumber)
    as [_ [Hyes [_ [Hany_yes Hany_no]]]].
  split; [ exact Hyes | ].
  split; [ apply Hany_yes; reflexivity | apply Hany_no; reflexivity ].
Defined.

(** ** Looking results up in the store *)

Lemma get_absent {A} (o : JsObject.t A) k :
  ~ In k (JsObject.keys o) -> JsObject.get o k = None.
Proof.
  unfold JsObject.keys.
  induction o as [ | [k' v] rest IH ]; simpl; intros H.
  - reflexivity.
  - destruct (String.eqb k k') eqn:E.
    + apply String.eqb_eq in E. exfalso. apply H. left. congruence.
    + apply IH. tauto.
Qed.

Lemma get_present {A} (o : JsObject.t A) k v :
  JsObject.get o k = Some v -> In k (JsObject.keys o).
Proof.
  unfold JsObject.keys.
  induction o as [ | [k' v'] rest IH ]; simpl; intros H.
  - discriminate.
  - destruct (String.eqb k k') eqn:E.
    + apply String.eqb_eq in E. now left.
    + right. now apply IH.
Qed.

Lemma keys_delete {A} (o : JsObject.t A) k k' :
  In k' (JsObject.keys (JsObject.delete o k)) -> In k' (JsObject.keys o).
Proof.
  unfold JsObject.keys.
  induction o as [ | [k0 v0] rest IH ]; simpl; intros H.
  - contradiction.
  - destruct (String.eqb k k0); [ now right | ].
    destruct H as [H | H]; [ now left | right; now apply IH ].
Qed.

Lemma delete_ordered {A} (o : JsObject.t A) k :
  JsObject.ordered o = true -> JsObject.ordered (JsObject.delete o k) = true.
Proof.
  unfold JsObject.ordered, JsObject.keys.
  induction o as [ | [k0 v0] rest IH ]; intros H.
  - reflexivity.
  - cbn [map fst JsObject.ordered_keys] in H.
    apply andb_prop in H as [Hhead Hrest].
    cbn [JsObject.delete].
    destruct (String.eqb k k0); [ exact Hrest | ].
    cbn [map fst JsObject.ordered_keys].
    rewrite (IH Hrest), andb_true_r.
    apply forallb_forall. intros k' Hin.
    rewrite forallb_forall in Hhead. apply Hhead.
    now apply (keys_delete rest k).
Qed.


Lemma get_delete_same {A} (o : JsObject.t A) k :
  JsObject.ordered o = true -> JsObject.get (JsObject.delete o k) k = None.
Proof.
  unfold JsObject.ordered, JsObject.keys.
  induction o as [ | [k0 v0] rest IH ]; intros H.
  - reflexivity.
  - cbn [JsObject.delete].
    destruct (String.eqb k k0) eqn:E.
    + apply String.eqb_eq in E. subst k0.
      apply get_absent. now apply JsOrderFacts.ordered_head_fresh.
    + cbn [JsObject.get]. rewrite E. apply IH.
      simpl in H. now apply andb_prop in H as [_ H].
Qed.

Lemma delete_absent {A} (o : JsObject.t A) k :
  JsObject.get o k = None -> JsObject.delete o k = o.
Proof.
  induction o as [ | [k0 v0] rest IH ]; simpl; intros H.
  - reflexivity.
  - destruct (String.eqb k k0); [ discriminate | ]. f_equal. now apply IH.
Qed.

Lemma delete_comm {A} (o : JsObject.t A) a b :
  JsObject.delete (JsObject.delete o a) b
  = JsObject.delete (JsObject.delete o b) a.
Proof.
  induction o as [ | [k v] rest IH ]; simpl.
  - reflexivity.
  - destruct (String.eqb a k) eqn:Ea, (String.eqb b k) eqn:Eb; simpl;
      rewrite ?Ea, ?Eb; try reflexivity.
    + apply String.eqb_eq in Ea, Eb. congruence.
    + now rewrite IH.
Qed.

(** The store of every reachable state holds at most one result per node
    id, in enumeration order. *)
Lemma reachable_ordered (ops : list StoreOp) :
  JsObject.ordered (nodeOutputs (runOps ops)) = true.
Proof.
  unfold runOps.
  assert (H : JsObject.ordered (nodeOutputs initialState) = true)
    by reflexivity.
  revert H. generalize initialState.
  induction ops as [ | op ops IH ]; intros st H.
  - exact H.
  - cbn [fold_left]. apply IH.
    destruct op as [ n out ty nm now | n | ]; cbn [applyOp].
    + now apply JsOrderFacts.set_ordered.
    + now apply delete_ordered.
    + reflexivity.
Qed.







(** X4: clearing two nodes gives the same store in either order, and in a
    reachable state clearing a node a second time changes nothing. *)
Theorem X4_clear_commutes :
  forall ops state a b,
    clearNodeOutput (clearNodeOutput state a) b
    = clearNodeOutput (clearNodeOutput state b) a
    /\ clearNodeOutput (clearNodeOutput (runOps ops) a) a
       = clearNodeOutput (runOps ops) a.
Proof.
  intros ops state a b. split.
  - unfold clearNodeOutput. cbn [nodeOutputs lastExecutionId lastExecutionTime].
    now rewrite (delete_comm (nodeOutputs state) a b).
  - unfold clearNodeOutput. cbn [nodeOutputs lastExecutionId lastExecutionTime].
    rewrite (delete_absent (JsObject.delete (nodeOutputs (runOps ops)) a) a);
      [ reflexivity | ].
    apply get_delete_same, reachable_ordered.
Qed.

(** X5: clearing a node that has no result keeps every recorded result,
    and still rebuilds both aggregates from them, so that [source] becomes
    the merge of all recorded outputs whatever it was before. *)
Theorem X5_clear_unrecorded_rebuilds :
  forall state nodeId,
    getNodeOutput state nodeId = None ->
    nodeOutputs (clearNodeOutput state nodeId) = nodeOutputs state
    /\ session (clearNodeOutput state nodeId)
       = replaySession (nodeOutputs state)
    /\ source (clearNodeOutput state nodeId)
       = replaySource (nodeOutputs state).
Proof.
  intros state nodeId Hnone.
  pose proof (clear_derivable state nodeId) as [Hsession Hsource].
  assert (Hsame : nodeOutputs (clearNodeOutput state nodeId) = nodeOutputs state)
    by (cbn [clearNodeOutput nodeOutputs]; now apply delete_absent).
  rewrite Hsession, Hsource, Hsame. auto.
Qed.

Lemma X5_clear_unrecorded_rebuilds_witness :
  nodeOutputs (clearNodeOutput (runOps chatThenModel) "mail-1")
  = nodeOutputs (runOps chatThenModel)
  /\ source (runOps chatThenModel) = VObj [("answer", VStr "hi")]
  /\ source (clearNodeOutput (runOps chatThenModel) "mail-1")
     = VObj [ ("message", VStr "hello");
              ("session.direct_input", VStr "hello");
              ("answer", VStr "hi") ].
Proof.
  destruct (X5_clear_unrecorded_rebuilds (runOps chatThenModel) "mail-1")
    as [Hsame [_ Hsource]]; [ reflexivity | ].
  split; [ exact Hsame | ]. split; [ reflexivity | ].
  rewrite Hsource. reflexivity.
Defined.

(** ** More on the availability resolver *)

Lemma upstream_more_edges edges extra n p :
  upstream edges n p -> upstream (edges ++ extra) n p.
Proof.
  induction 1 as [ e He Ht | e He _ IH ].
  - apply upstream_direct; [ apply in_or_app; now left | exact Ht ].
  - apply upstream_step; [ apply in_or_app; now left | exact IH ].
Qed.

(** X6: when the resolver answers with the data object, [node_outputs]
    maps exactly the transitive predecessors other than the node itself
    that have a usable recorded output, each to its redacted output; the
    node's own id and the ids of nodes that are not upstream are absent. *)
Theorem X6_node_outputs_exact :
  forall state nodes edges nodeId,
    hasOtherPredecessor edges nodeId ->
    exists sourceData outputs,
      getAvailableDataForNode state nodes edges nodeId
      = Ok (availableData (session state) sourceData outputs)
      /\ JsObject.get outputs nodeId = None
      /\ (forall k, upstream edges nodeId k -> k <> nodeId ->
            JsObject.get outputs k = exposedOutput state k)
      /\ (forall k, ~ upstream edges nodeId k -> JsObject.get outputs k = None).
Proof.
  intros state nodes edges nodeId [p Hp].
  destruct (available_cases state nodes edges nodeId)
    as [found [_ [Hids Hrun]]].
  rewrite Hrun. pose proof Hp as Hp'. apply Hids in Hp'.
  destruct (predecessorIdsOf found nodeId) as [ | q rest ] eqn:E;
    [ contradiction | ].
  exists (directSource state (directPredecessors nodes edges nodeId)),
    (collectOutputs state (q :: rest)).
  split; [ reflexivity | ].
  assert (Hget : forall k,
             JsObject.get (collectOutputs state (q :: rest)) k
             = if set_has (q :: rest) k then exposedOutput state k else None)
    by (intros k; apply collectOutputs_get).
  split; [ | split ].
  - rewrite Hget.
    destruct (set_has (q :: rest) nodeId) eqn:Es; [ | reflexivity ].
    apply set_has_In, Hids in Es. tauto.
  - intros k Hup Hne. rewrite Hget.
    assert (Hs : set_has (q :: rest) k = true)
      by (apply set_has_In, Hids; tauto).
    now rewrite Hs.
  - intros k Hno. rewrite Hget.
    destruct (set_has (q :: rest) k) eqn:Es; [ | reflexivity ].
    apply set_has_In, Hids in Es. tauto.
Qed.

Lemma X6_node_outputs_exact_witness :
  exists sourceData outputs,
    getAvailableDataForNode (runOps chatThenModel) chainNodes chainEdges "mail-1"
    = Ok (availableData (session (runOps chatThenModel)) sourceData outputs)
    /\ JsObject.get outputs "mail-1" = None.
Proof.
  destruct (X6_node_outputs_exact
              (runOps chatThenModel) chainNodes chainEdges "mail-1")
    as [sourceData [outputs [Hrun [Hself _]]]].
  - exists "llm-1". split; [ | discriminate ].
    apply (upstream_direct chainEdges "mail-1" (connect "llm-1" "mail-1")).
    + right. now left.
    + reflexivity.
  - exists sourceData, outputs. split; assumption.
Defined.

(** X7: every direct predecessor that the resolver lists is among the
    transitive predecessors that the search finds, and adding edges to a
    graph never removes a node from what the search finds. *)
Theorem X7_predecessors_grow_with_edges :
  forall nodes edges extra nodeId,
    exists found found',
      findPredecessors edges nodeId = Ok found
      /\ findPredecessors (edges ++ extra) nodeId = Ok found'
      /\ incl (directPredecessors nodes edges nodeId) found
      /\ incl found found'.
Proof.
  intros nodes edges extra nodeId.
  destruct (findPredecessors_upstream edges nodeId) as [found [Hrun [_ Hiff]]].
  destruct (findPredecessors_upstream (edges ++ extra) nodeId)
    as [found' [Hrun' [_ Hiff']]].
  exists found, found'.
  split; [ exact Hrun | ]. split; [ exact Hrun' | ]. split.
  - intros p Hp. apply Hiff. eapply directPredecessors_upstream; eassumption.
  - intros p Hp. apply Hiff'. apply upstream_more_edges. now apply Hiff.
Qed.

(** X8: for an agent node a tool builder upstream of it is never listed as
    direct predecessor, so a [source] keyed by node id has no entry for
    it; the tool builder's redacted output is still to be found under
    [node_outputs]. *)
Theorem X8_agent_hides_tool_builder_from_source :
  forall state nodes edges agent tool,
    hasType (getNodeById nodes agent) "agentNode" = true ->
    hasType (getNodeById nodes tool) "toolBuilderNode" = true ->
    upstream edges agent tool -> tool <> agent ->
    exists sourceData outputs,
      getAvailableDataForNode state nodes edges agent
      = Ok (availableData (session state) sourceData outputs)
      /\ JsObject.get outputs tool = exposedOutput state tool
      /\ ~ In tool (directPredecessors nodes edges agent)
      /\ (length (directPredecessors nodes edges agent) <> 1%nat ->
          JsObject.get (ownEntries sourceData) tool = None).
Proof.
  intros state nodes edges agent tool Hagent Htool Hup Hne.
  destruct (available_cases state nodes edges agent)
    as [found [_ [Hids Hrun]]].
  rewrite Hrun.
  assert (Hin : In tool (predecessorIdsOf found agent)) by (apply Hids; tauto).
  destruct (predecessorIdsOf found agent) as [ | q rest ] eqn:E;
    [ contradiction | ].
  assert (Hnot : ~ In tool (directPredecessors nodes edges agent)).
  { intros Hd. apply directPredecessors_In in Hd as [_ Hkept].
    unfold keptAsDirect in Hkept. rewrite Hagent, Htool in Hkept.
    discriminate Hkept. }
  exists (directSource state (directPredecessors nodes edges agent)),
    (collectOutputs state (q :: rest)).
  split; [ reflexivity | ]. split; [ | split; [ exact Hnot | ] ].
  - rewrite collectOutputs_get.
    apply set_has_In in Hin. now rewrite Hin.
  - intros Hlen.
    apply set_has_not_In in Hnot.
    unfold directSource.
    destruct (directPredecessors nodes edges agent) as [ | d [ | d' more ] ];
      cbn [ownEntries].
    + reflexivity.
    + now contradiction Hlen.
    + now rewrite collectOutputs_get, Hnot.
Qed.

Lemma X8_agent_hides_tool_builder_from_source_witness :
  exists sourceData outputs,
    getAvailableDataForNode (runOps agentRecorded) agentNodes agentEdges "agent-1"
    = Ok (availableData (session (runOps agentRecorded)) sourceData outputs)
    /\ JsObject.get outputs "tool-1" = Some (VObj [("tool", VStr "search")])
    /\ ~ In "tool-1" (directPredecessors agentNodes agentEdges "agent-1").
Proof.
  destruct (X8_agent_hides_tool_builder_from_source
              (runOps agentRecorded) agentNodes agentEdges "agent-1" "tool-1")
    as [sourceData [outputs [Hrun [Hout [Hnot _]]]]].
  - reflexivity.
  - reflexivity.
  - apply (upstream_direct agentEdges "agent-1" (connect "tool-1" "agent-1")).
    + right. now left.
    + reflexivity.
  - discriminate.
  - exists sourceData, outputs.
    split; [ exact Hrun | ]. split; [ exact Hout | exact Hnot ].
Defined.

(** ** Redaction keeps everything else *)








(** ** Compaction builds well-formed values *)

Lemma rebuild_entries {A B} (h : string * A -> B) (o : JsObject.t A) :
  forall (acc : JsObject.t B) kv,
    In kv (fold_left (fun result x => JsObject.set result (fst x) (h x)) o acc) ->
    In kv acc \/ exists x, In x o /\ kv = (fst x, h x).
Proof.
  induction o as [ | x rest IH ]; intros acc kv H; cbn [fold_left] in H.
  - now left.
  - apply IH in H as [H | [y [Hy ->]]].
    + apply set_entries in H as [-> | H]; [ | now left ].
      right. exists x. split; [ now left | reflexivity ].
    + right. exists y. split; [ now right | reflexivity ].
Qed.

Lemma rebuild_any_ordered {A B} (h : string * A -> B) (o : JsObject.t A) :
  forall acc : JsObject.t B,
    JsObject.ordered acc = true ->
    JsObject.ordered
      (fold_left (fun result x => JsObject.set result (fst x) (h x)) o acc)
    = true.
Proof.
  induction o as [ | x rest IH ]; intros acc H; cbn [fold_left].
  - exact H.
  - apply IH. now apply JsOrderFacts.set_ordered.
Qed.


(** ** Template variables *)

Lemma append_nil_r (s : string) : s ++ "" = s.
Proof. induction s; simpl; congruence. Qed.

Lemma append_assoc (a b c : string) : (a ++ b) ++ c = a ++ b ++ c.
Proof. induction a; simpl; congruence. Qed.

Lemma length_append (a b : string) :
  String.length (a ++ b) = (String.length a + String.length b)%nat.
Proof. induction a; simpl; congruence. Qed.

Lemma scan_skip (x rest : string) :
  scanFrom (String.length x) (x ++ rest) = scanFrom 0 rest.
Proof.
  induction x as [ | c x IH ]; simpl.
  - now destruct rest.
  - exact IH.
Qed.

Lemma drop_prefix_app p : forall a b r,
  JsString.drop_prefix p a = Some r ->
  JsString.drop_prefix p (a ++ b) = Some (r ++ b).
Proof.
  induction p as [ | x p IH ]; intros a b r H; simpl in *.
  - now injection H as <-.
  - destruct a as [ | y a ]; [ discriminate | ]. simpl.
    destruct (Ascii.eqb x y); [ now apply IH | discriminate ].
Qed.

(** A pattern that does not hold the character [c] cannot match across a
    place where the text goes on with [c]. *)
Lemma drop_prefix_before c p :
  (forall x, In x (list_ascii_of_string p) -> x <> c) ->
  forall a b r,
    JsString.drop_prefix p (a ++ String c b) = Some r ->
    exists r', JsString.drop_prefix p a = Some r'.
Proof.
  induction p as [ | x p IH ]; intros Hp a b r H; simpl in *.
  - now exists a.
  - destruct a as [ | y a ]; simpl in H.
    + destruct (Ascii.eqb_spec x c) as [-> | _]; [ | discriminate ].
      exfalso. apply (Hp c); auto.
    + destruct (Ascii.eqb x y); [ | discriminate ].
      apply (IH (fun z Hz => Hp z (or_intror Hz)) a b r H).
Qed.

Lemma strip_ws_app a b :
  JsString.strip_ws (a ++ b) = None -> JsString.strip_ws a = None.
Proof.
  unfold JsString.strip_ws.
  induction JsString.whitespace as [ | p ps IH ]; simpl.
  - reflexivity.
  - destruct (JsString.drop_prefix p a) as [ r | ] eqn:E.
    + now rewrite (drop_prefix_app p a b r E).
    + destruct (JsString.drop_prefix p (a ++ b)); [ discriminate | exact IH ].
Qed.

Lemma whitespace_has_no (c : ascii) :
  forallb
    (fun p => negb (existsb (Ascii.eqb c) (list_ascii_of_string p)))
    JsString.whitespace = true ->
  forall p, In p JsString.whitespace ->
    forall x, In x (list_ascii_of_string p) -> x <> c.
Proof.
  intros H p Hp x Hx ->.
  rewrite forallb_forall in H. specialize (H p Hp).
  apply negb_true_iff in H.
  assert (Ht : existsb (Ascii.eqb c) (list_ascii_of_string p) = true).
  { apply existsb_exists. exists c. split; [ exact Hx | apply Ascii.eqb_refl ]. }
  congruence.
Qed.

Lemma strip_ws_before c a b :
  forallb
    (fun p => negb (existsb (Ascii.eqb c) (list_ascii_of_string p)))
    JsString.whitespace = true ->
  JsString.strip_ws a = None -> a <> "" ->
  JsString.strip_ws (a ++ String c b) = None.
Proof.
  intros Hc. pose proof (whitespace_has_no c Hc) as Hno. clear Hc.
  unfold JsString.strip_ws.
  induction JsString.whitespace as [ | p ps IH ]; simpl; intros H Ha.
  - reflexivity.
  - destruct (JsString.drop_prefix p a) as [ r | ] eqn:E; [ discriminate | ].
    destruct (JsString.drop_prefix p (a ++ String c b)) as [ r | ] eqn:E'.
    + destruct (drop_prefix_before c p (Hno p (or_introl eq_refl)) a b r E')
        as [r' Hr']. congruence.
    + apply IH; auto. intros q Hq. apply Hno. now right.
Qed.

Lemma nameRun_split : forall s name after,
  nameRun s = (name, after) ->
  s = name ++ after /\ plainRun name = true.
Proof.
  induction s as [ | c s IH ]; intros name after H.
  - injection H as <- <-. now split.
  - cbn [nameRun] in H.
    destruct (breaksName (String c s)) eqn:Eb.
    + injection H as <- <-. now split.
    + destruct (nameRun s) as [n a] eqn:En.
      injection H as <- <-.
      destruct (IH n a eq_refl) as [Hs Hp].
      split; [ simpl; now rewrite Hs | ].
      cbn [plainRun]. rewrite Hp, andb_true_r.
      apply negb_true_iff.
      cbn [breaksName] in Eb |- *.
      apply orb_false_iff in Eb as [Hbrace Hws]. rewrite Hbrace. simpl.
      destruct (JsString.strip_ws (String c s)) eqn:Ews; [ discriminate | ].
      rewrite Hs in Ews.
      now rewrite (strip_ws_app (String c n) a Ews).
Qed.

Lemma matchHere_split s name rest :
  matchHere s = Some (name, rest) ->
  s = placeholder name ++ rest /\ plainName name = true.
Proof.
  unfold matchHere, placeholder, plainName. intros H.
  destruct s as [ | c1 [ | c2 inner ] ]; try discriminate.
  - destruct c1 as [[] [] [] [] [] [] [] []]; discriminate.
  - destruct (Ascii.eqb_spec c1 "{") as [-> | Hne];
      [ | destruct c1 as [[] [] [] [] [] [] [] []]; try discriminate;
          now contradiction Hne ].
    destruct (Ascii.eqb_spec c2 "{") as [-> | Hne];
      [ | destruct c2 as [[] [] [] [] [] [] [] []]; try discriminate;
          now contradiction Hne ].
    destruct (nameRun inner) as [n a] eqn:En.
    destruct (String.eqb n "") eqn:Ee; [ discriminate | ].
    destruct a as [ | d1 [ | d2 a ] ]; try discriminate.
    + destruct d1 as [[] [] [] [] [] [] [] []]; discriminate.
    + destruct (Ascii.eqb_spec d1 "}") as [-> | Hne];
        [ | destruct d1 as [[] [] [] [] [] [] [] []]; try discriminate;
            now contradiction Hne ].
      destruct (Ascii.eqb_spec d2 "}") as [-> | Hne];
        [ | destruct d2 as [[] [] [] [] [] [] [] []]; try discriminate;
            now contradiction Hne ].
      injection H as <- <-.
      destruct (nameRun_split inner n _ En) as [Hs Hp].
      rewrite Ee, Hp. split; [ | reflexivity ].
      simpl. rewrite Hs. now rewrite append_assoc.
Qed.

(** The scan restarts right after a match, and one character further when
    there is none. *)
Lemma scan_unfold (s : string) :
  scanFrom 0 s
  = match matchHere s with
    | Some (name, rest) => name :: scanFrom 0 rest
    | None =>
        match s with
        | EmptyString => []
        | String _ tail => scanFrom 0 tail
        end
    end.
Proof.
  destruct (matchHere s) as [ [name rest] | ] eqn:E.
  - destruct (matchHere_split s name rest E) as [Hs _].
    destruct s as [ | c tail ]; [ discriminate | ].
    cbn [scanFrom]. rewrite E. f_equal.
    unfold placeholder in Hs. simpl in Hs. injection Hs as _ Htail.
    rewrite Htail.
    change (String "{" (name ++ "}}") ++ rest)
      with ((String "{" (name ++ "}}")) ++ rest).
    rewrite <- (scan_skip (String "{" (name ++ "}}")) rest).
    f_equal. simpl. rewrite length_append. simpl. lia.
  - destruct s as [ | c tail ]; [ reflexivity | ].
    cbn [scanFrom]. now rewrite E.
Qed.

Lemma matchHere_shorter s name rest :
  matchHere s = Some (name, rest) ->
  (String.length rest < String.length s)%nat.
Proof.
  intros H. apply matchHere_split in H as [-> _].
  unfold placeholder. rewrite !length_append. simpl. lia.
Qed.

(** Every name that the scan yields is a plain name that stands in the
    text between double braces. *)
Lemma scan_sound : forall n s v,
  (String.length s <= n)%nat ->
  In v (scanFrom 0 s) ->
  plainName v = true /\ exists before after, s = before ++ placeholder v ++ after.
Proof.
  induction n as [ | n IH ]; intros s v Hlen Hin.
  - destruct s; [ contradiction | simpl in Hlen; lia ].
  - rewrite scan_unfold in Hin.
    destruct (matchHere s) as [ [name rest] | ] eqn:E.
    + pose proof (matchHere_shorter s name rest E) as Hshort.
      destruct (matchHere_split s name rest E) as [Hs Hplain].
      destruct Hin as [<- | Hin].
      * split; [ exact Hplain | ]. exists "", rest. exact Hs.
      * destruct (IH rest v) as [Hp [before [after Hrest]]];
          [ lia | exact Hin | ].
        split; [ exact Hp | ].
        exists (placeholder name ++ before), after.
        rewrite Hs, Hrest. now rewrite append_assoc.
    + destruct s as [ | c tail ]; [ contradiction | ].
      destruct (IH tail v) as [Hp [before [after Htail]]];
        [ simpl in Hlen; lia | exact Hin | ].
      split; [ exact Hp | ].
      exists (String c before), after. simpl. now rewrite Htail.
Qed.

Lemma no_brace_in_whitespace (c : ascii) :
  isBrace c = true ->
  forallb
    (fun p => negb (existsb (Ascii.eqb c) (list_ascii_of_string p)))
    JsString.whitespace = true.
Proof.
  unfold isBrace. intros H. apply orb_prop in H as [H | H];
    apply Ascii.eqb_eq in H; subst c; reflexivity.
Qed.

(** A plain run followed by a brace is taken whole. *)
Lemma nameRun_plain c after : isBrace c = true ->
  forall v, plainRun v = true ->
  nameRun (v ++ String c after) = (v, String c after).
Proof.
  intros Hc.
  induction v as [ | x v IH ]; intros Hp.
  - cbn [append nameRun breaksName]. now rewrite Hc.
  - cbn [plainRun] in Hp. apply andb_prop in Hp as [Hx Hv].
    apply negb_true_iff in Hx.
    cbn [append nameRun].
    assert (Hb : breaksName (String x (v ++ String c after)) = false).
    { cbn [breaksName] in Hx |- *.
      apply orb_false_iff in Hx as [Hbrace Hws]. rewrite Hbrace. simpl.
      destruct (JsString.strip_ws (String x v)) eqn:Ews; [ discriminate | ].
      change (String x (v ++ String c after))
        with (String x v ++ String c after).
      rewrite (strip_ws_before c (String x v) after
                 (no_brace_in_whitespace c Hc) Ews); [ reflexivity | discriminate ]. }
    rewrite Hb. now rewrite (IH Hv).
Qed.

Lemma matchHere_placeholder v after :
  plainName v = true -> matchHere (placeholder v ++ after) = Some (v, after).
Proof.
  unfold plainName, placeholder. intros H.
  apply andb_prop in H as [Hne Hp]. apply negb_true_iff in Hne.
  cbn [append matchHere]. rewrite append_assoc.
  cbn [append].
  rewrite (nameRun_plain "}" (String "}" after) eq_refl v Hp).
  now rewrite Hne.
Qed.

(** A run that is cut by an opening brace further on stops before it. *)
Lemma nameRun_before_brace x : forall p name after,
  nameRun (p ++ String "{" x) = (name, after) ->
  exists tail, p = name ++ tail /\ after = tail ++ String "{" x.
Proof.
  induction p as [ | c p IH ]; intros name after H.
  - cbn [append nameRun breaksName isBrace] in H. simpl in H.
    injection H as <- <-. now exists "".
  - cbn [append nameRun] in H.
    destruct (breaksName (String c (p ++ String "{" x))).
    + injection H as <- <-. now exists (String c p).
    + destruct (nameRun (p ++ String "{" x)) as [n a] eqn:En.
      injection H as <- <-.
      destruct (IH n a eq_refl) as [tail [-> ->]].
      now exists tail.
Qed.

(** A match that starts before a double opening brace ends before it. *)
Lemma matchHere_before p x name rest :
  p <> "" ->
  matchHere (p ++ String "{" (String "{" x)) = Some (name, rest) ->
  exists tail,
    rest = tail ++ String "{" (String "{" x)
    /\ (String.length tail < String.length p)%nat.
Proof.
  intros Hp H.
  destruct p as [ | c1 p ]; [ congruence | ]. clear Hp.
  unfold matchHere in H. cbn [append] in H.
  destruct (Ascii.eqb_spec c1 "{") as [-> | Hne];
    [ | destruct c1 as [[] [] [] [] [] [] [] []]; try discriminate;
        destruct (p ++ String "{" (String "{" x)); try discriminate;
        now contradiction Hne ].
  destruct p as [ | c2 p ].
  - cbn [append] in H. cbn [nameRun breaksName isBrace] in H. simpl in H.
    discriminate.
  - cbn [append] in H.
    destruct (Ascii.eqb_spec c2 "{") as [-> | Hne];
      [ | destruct c2 as [[] [] [] [] [] [] [] []]; try discriminate;
          now contradiction Hne ].
    destruct (nameRun (p ++ String "{" (String "{" x))) as [n a] eqn:En.
    destruct (nameRun_before_brace (String "{" x) p n a En) as [tail [-> ->]].
    destruct (String.eqb n ""); [ discriminate | ].
    destruct tail as [ | d1 [ | d2 tail ] ]; cbn [append] in H.
    + discriminate.
    + destruct d1 as [[] [] [] [] [] [] [] []]; discriminate.
    + destruct (Ascii.eqb_spec d1 "}") as [-> | Hne];
        [ | destruct d1 as [[] [] [] [] [] [] [] []]; try discriminate;
            now contradiction Hne ].
      destruct (Ascii.eqb_spec d2 "}") as [-> | Hne];
        [ | destruct d2 as [[] [] [] [] [] [] [] []]; try discriminate;
            now contradiction Hne ].
      injection H as <- <-.
      exists tail. split; [ reflexivity | ].
      simpl. rewrite length_append. simpl. lia.
Qed.

(** A plain name between double braces is found wherever it stands. *)
Lemma scan_complete v after : plainName v = true ->
  forall n before,
    (String.length before <= n)%nat ->
    In v (scanFrom 0 (before ++ placeholder v ++ after)).
Proof.
  intros Hv.
  induction n as [ | n IH ]; intros before Hlen.
  - destruct before; [ | simpl in Hlen; lia ].
    cbn [append]. rewrite scan_unfold, (matchHere_placeholder v after Hv).
    now left.
  - destruct before as [ | c before ].
    + cbn [append]. rewrite scan_unfold, (matchHere_placeholder v after Hv).
      now left.
    + rewrite scan_unfold.
      destruct (matchHere (String c before ++ placeholder v ++ after))
        as [ [name rest] | ] eqn:E.
      * assert (Hform : placeholder v ++ after
                        = String "{" (String "{" (v ++ "}}" ++ after)))
          by (unfold placeholder; now rewrite !append_assoc).
        rewrite Hform in E.
        apply (matchHere_before (String c before) (v ++ "}}" ++ after))
          in E as [tail [-> Htail]]; [ | discriminate ].
        right. rewrite <- Hform. apply IH. simpl in Hlen, Htail. lia.
      * cbn [append]. apply IH. simpl in Hlen. lia.
Qed.

Lemma fold_set_add_In (l : list string) : forall acc v,
  In v (fold_left set_add l acc) <-> In v acc \/ In v l.
Proof.
  induction l as [ | x l IH ]; intros acc v; cbn [fold_left].
  - simpl. tauto.
  - rewrite IH, set_add_In. simpl. intuition congruence.
Qed.

Lemma fold_set_add_NoDup (l : list string) : forall acc,
  NoDup acc -> NoDup (fold_left set_add l acc).
Proof.
  induction l as [ | x l IH ]; intros acc H; cbn [fold_left].
  - exact H.
  - apply IH. now apply set_add_NoDup.
Qed.

(** X11: a name is among the extracted variables exactly when it is not
    empty, holds no brace and no white space, and stands somewhere in the
    text between double braces; no name is listed twice. *)
Theorem X11_extract_exactly_the_placeholders :
  forall text,
    NoDup (extractDynamicVariables text)
    /\ forall v,
         In v (extractDynamicVariables text)
         <-> plainName v = true
             /\ exists before after, text = before ++ placeholder v ++ after.
Proof.
  intros text. unfold extractDynamicVariables. split.
  - apply fold_set_add_NoDup. constructor.
  - intros v. rewrite fold_set_add_In. split.
    + intros [[] | Hin]. now apply (scan_sound (String.length text)).
    + intros [Hv [before [after ->]]]. right.
      now apply (scan_complete v after Hv (String.length before)).
Qed.

Lemma get_assign_constant {A} (c : A) (l : list string) : forall acc k,
  JsObject.get (JsObject.assign acc (map (fun v => (v, c)) l)) k
  = if set_has l k then Some c else JsObject.get acc k.
Proof.
  unfold JsObject.assign.
  induction l as [ | x l IH ]; intros acc k; cbn [map fold_left fst snd].
  - reflexivity.
  - rewrite IH. unfold set_has. cbn [existsb]. fold (set_has l k).
    destruct (set_has l k); [ now rewrite orb_true_r | ].
    rewrite orb_false_r.
    destruct (String.eqb k x) eqn:E.
    + apply String.eqb_eq in E. subst x. apply JsObjectFacts.get_set_same.
    + now apply JsObjectFacts.get_set_other.
Qed.

Lemma convert_ordered_fields (fields : JsObject.t ParamSpec) :
  JsObject.ordered fields = true ->
  convertSchemaToParams (Some fields)
  = map (fun kv => (fst kv, normalized (snd kv))) fields.
Proof.
  intros H. unfold convertSchemaToParams.
  apply (JsObjectFacts.rebuild_ordered (fun kv => normalized (snd kv)) fields []).
  exact H.
Qed.

Lemma convert_ordered schema :
  JsObject.ordered (convertSchemaToParams schema) = true.
Proof.
  destruct schema as [ fields | ]; [ | reflexivity ].
  unfold convertSchemaToParams.
  apply (rebuild_any_ordered (fun kv => normalized (snd kv)) fields []).
  reflexivity.
Qed.

Lemma convert_entries schema k p :
  In (k, p) (convertSchemaToParams schema) ->
  exists q, p = normalized q.
Proof.
  destruct schema as [ fields | ]; [ | intros [] ].
  unfold convertSchemaToParams. intros H.
  apply (rebuild_entries (fun kv => normalized (snd kv)) fields []) in H
    as [[] | [x [_ Hx]]].
  injection Hx as _ ->. now exists (snd x).
Qed.

Lemma normalized_twice p : normalized (normalized p) = normalized p.
Proof.
  unfold normalized. cbn [paramType paramRequired].
  now destruct (paramRequired p) as [[]|].
Qed.

(** X12: the record built from a text has one entry for each extracted
    variable and no other, every entry says type [string] and required;
    and passing the record through [convertSchemaToParams] gives it back
    unchanged, as long as no variable is named [__proto__], a name that the
    assignment in [convertSchemaToParams] does not store as a property. *)
Theorem X12_variables_as_record :
  forall text,
    (forall v,
       JsObject.get (extractDynamicVariablesAsRecord text) v
       = if set_has (extractDynamicVariables text) v
         then Some requiredString else None)
    /\ (set_has (extractDynamicVariables text) "__proto__" = false ->
        convertSchemaToParams (Some (extractDynamicVariablesAsRecord text))
        = extractDynamicVariablesAsRecord text).
Proof.
  intros text. split.
  - intros v. unfold extractDynamicVariablesAsRecord.
    apply (get_assign_constant requiredString).
  - intros _.
    assert (Hord : JsObject.ordered (extractDynamicVariablesAsRecord text) = true)
      by (apply JsOrderFacts.assign_ordered; reflexivity).
    rewrite (convert_ordered_fields _ Hord).
    rewrite <- (map_id (extractDynamicVariablesAsRecord text)) at 2.
    apply map_ext_in. intros [k p] Hin. cbn [fst snd]. f_equal.
    unfold extractDynamicVariablesAsRecord, JsObject.assign in Hin.
    assert (Hall : forall l acc,
               (forall kv, In kv acc -> snd kv = requiredString) ->
               forall kv,
                 In kv (fold_left
                          (fun acc kv => JsObject.set acc (fst kv) (snd kv))
                          (map (fun v => (v, requiredString)) l) acc) ->
                 snd kv = requiredString).
    { induction l as [ | x l IH ]; intros acc Hacc kv H; cbn [map fold_left] in H.
      - now apply Hacc.
      - apply IH in H; [ exact H | ].
        intros kv' Hkv'. cbn [fst snd] in Hkv'.
        apply set_entries in Hkv' as [-> | Hkv']; [ reflexivity | now apply Hacc ]. }
    apply Hall in Hin; [ | intros kv [] ].
    cbn [snd] in Hin. now subst p.
Qed.

Lemma X12_variables_as_record_witness :
  convertSchemaToParams
    (Some (extractDynamicVariablesAsRecord "Dear {{name}}, see {{order.id}}"))
  = [ ("name", requiredString); ("order.id", requiredString) ].
Proof.
  destruct (X12_variables_as_record "Dear {{name}}, see {{order.id}}")
    as [_ H].
  rewrite H; reflexivity.
Defined.

(** X13: [convertSchemaToParams] keeps the name and the type of every
    field and writes [required] as a boolean that is [true] only where the
    schema says [true]; a missing schema gives the empty record, and
    converting a second time changes nothing.  The field looked up is any
    but [__proto__], a name that the assignment does not store as a
    property. *)
Theorem X13_convert_schema :
  forall schema,
    convertSchemaToParams None = []
    /\ convertSchemaToParams (Some (convertSchemaToParams schema))
       = convertSchemaToParams schema
    /\ (forall fields k,
          schema = Some fields -> JsObject.ordered fields = true ->
          k <> "__proto__" ->
          JsObject.get (convertSchemaToParams schema) k
          = option_map normalized (JsObject.get fields k)).
Proof.
  intros schema. split; [ reflexivity | ]. split.
  - rewrite (convert_ordered_fields _ (convert_ordered schema)).
    rewrite <- (map_id (convertSchemaToParams schema)) at 2.
    apply map_ext_in. intros [k p] Hin. cbn [fst snd]. f_equal.
    destruct (convert_entries schema k p Hin) as [q ->].
    apply normalized_twice.
  - intros fields k -> Hord _.
    rewrite (convert_ordered_fields fields Hord).
    clear Hord. induction fields as [ | [k' p] rest IH ]; simpl.
    + reflexivity.
    + destruct (String.eqb k k'); [ reflexivity | exact IH ].
Qed.

Lemma X13_convert_schema_witness :
  JsObject.get
    (convertSchemaToParams
       (Some [ ("city", mkParam "string" None);
               ("age", mkParam "number" (Some true)) ]))
    "city"
  = Some (mkParam "string" (Some false)).
Proof.
  destruct (X13_convert_schema
              (Some [ ("city", mkParam "string" None);
                      ("age", mkParam "number" (Some true)) ]))
    as [_ [_ H]].
  rewrite (H _ "city" eq_refl); [ reflexivity | reflexivity | discriminate ].
Defined.

(** ** Sample values *)

Lemma field_induction (P : FieldSchema -> Prop) :
  (forall type properties items,
     match properties with
     | Some props => Forall (fun kv => P (snd kv)) props
     | None => True
     end ->
     match items with Some item => P item | None => True end ->
     P (Field type properties items)) ->
  forall f, P f.
Proof.
  intros Hfield.
  fix IH 1.
  intros [type properties items].
  apply Hfield.
  - destruct properties as [ props | ]; [ | exact I ].
    revert props.
    fix IHl 1.
    intros [ | [k x] rest ]; constructor; [ apply IH | apply IHl ].
  - destruct items as [ item | ]; [ apply IH | exact I ].
Qed.

Lemma sample_truthy f : truthy (generateSampleValue f) = true.
Proof.
  destruct f as [type properties items]. cbn [generateSampleValue].
  destruct (String.eqb type "string"); [ reflexivity | ].
  destruct (String.eqb type "number"); [ reflexivity | ].
  destruct (String.eqb type "boolean"); [ reflexivity | ].
  destruct (String.eqb type "array"); [ now destruct items | ].
  destruct (String.eqb type "object"); [ now destruct properties | ].
  destruct (String.eqb type "any"); reflexivity.
Qed.

Lemma sample_stable (threshold : nat) : (1 <= threshold)%nat ->
  forall f,
    well_formed (generateSampleValue f) = true
    /\ optimizeOutputForStorage threshold (generateSampleValue f)
       = generateSampleValue f.
Proof.
  intros Hthr.
  assert (Hone : (threshold <? 1)%nat = false) by (apply Nat.ltb_ge; lia).
  induction f as [type properties items IHprops IHitem] using field_induction.
  cbn [generateSampleValue].
  destruct (String.eqb type "string"); [ now split | ].
  destruct (String.eqb type "number"); [ now split | ].
  destruct (String.eqb type "boolean"); [ now split | ].
  destruct (String.eqb type "array").
  { destruct items as [ item | ].
    - destruct IHitem as [Hwf Hopt]. split.
      + cbn. now rewrite Hwf.
      + cbn [optimizeOutputForStorage length]. rewrite Hone. cbn [andb map].
        now rewrite Hopt.
    - split; [ reflexivity | ].
      cbn [optimizeOutputForStorage length]. now rewrite Hone. }
  destruct (String.eqb type "object").
  { destruct properties as [ props | ].
    - set (built := fold_left
                      (fun obj kv =>
                         JsObject.set obj (fst kv) (generateSampleValue (snd kv)))
                      props []).
      assert (Hord : JsObject.ordered built = true)
        by (apply (rebuild_any_ordered
                     (fun kv => generateSampleValue (snd kv)) props []);
            reflexivity).
      assert (Hvals : forall kv, In kv built ->
                 well_formed (snd kv) = true
                 /\ optimizeOutputForStorage threshold (snd kv) = snd kv).
      { intros kv Hin.
        apply (rebuild_entries
                 (fun kv => generateSampleValue (snd kv)) props []) in Hin
          as [[] | [x [Hx ->]]].
        cbn [snd]. rewrite Forall_forall in IHprops. now apply IHprops. }
      split.
      + cbn [well_formed]. rewrite Hord. cbn [andb].
        apply forallb_forall. intros kv Hin. now apply Hvals.
      + cbn [optimizeOutputForStorage]. f_equal.
        rewrite (JsObjectFacts.rebuild_ordered
                   (fun kv => optimizeOutputForStorage threshold (snd kv))
                   built []) by exact Hord.
        cbn [app]. rewrite <- (map_id built) at 2.
        apply map_ext_in. intros [k v] Hin. cbn [fst snd]. f_equal.
        now apply (Hvals (k, v)).
    - split; [ reflexivity | ]. reflexivity. }
  destruct (String.eqb type "any"); now split.
Qed.

(** X14: a generated sample value is truthy, is a well-formed value, and
    goes through storage compaction unchanged for every threshold of at
    least one. *)
Theorem X14_sample_values_are_stored_as_they_are :
  forall threshold f,
    (1 <= threshold)%nat ->
    truthy (generateSampleValue f) = true
    /\ well_formed (generateSampleValue f) = true
    /\ optimizeOutputForStorage threshold (generateSampleValue f)
       = generateSampleValue f.
Proof.
  intros threshold f Hthr.
  split; [ apply sample_truthy | now apply sample_stable ].
Qed.

Lemma X14_sample_values_are_stored_as_they_are_witness :
  optimizeOutputForStorage 2
    (generateSampleValue
       (Field "object"
          (Some [ ("rows", Field "array" None
                             (Some (Field "object"
                                      (Some [("id", Field "number" None None)])
                                      None))) ])
          None))
  = VObj [("rows", VArr [VObj [("id", VNum 42)]])].
Proof.
  destruct (X14_sample_values_are_stored_as_they_are 2
              (Field "object"
                 (Some [ ("rows", Field "array" None
                                    (Some (Field "object"
                                             (Some [("id", Field "number" None None)])
                                             None))) ])
                 None))
    as [_ [_ H]]; [ lia | ].
  rewrite H. reflexivity.
Defined.

Lemma addVariables_get text : forall out k,
  allTruthy out ->
  allTruthy (addVariables text out)
  /\ JsObject.get (addVariables text out) k
     = match JsObject.get out k with
       | Some v => Some v
       | None =>
           if set_has (extractDynamicVariables text) k && negb (inherited k)
           then Some (VStr "sample_string_value") else None
       end.
Proof.
  unfold addVariables.
  induction (extractDynamicVariables text) as [ | x l IH ]; intros out k Hout;
    cbn [fold_left].
  - split; [ exact Hout | ]. simpl. now destruct (JsObject.get out k).
  - set (next := if lacks out x
                 then JsObject.set out x
                        (generateSampleValue (Field "string" None None))
                 else out).
    assert (Hnext : allTruthy next
                    /\ JsObject.get next k
                       = match JsObject.get out k with
                         | Some v => Some v
                         | None =>
                             if String.eqb k x && negb (inherited k)
                             then Some (VStr "sample_string_value") else None
                         end).
    { subst next. unfold lacks.
      destruct (JsObject.get out x) as [ vx | ] eqn:Ex.
      - rewrite (Hout x vx Ex). cbn [negb]. split; [ exact Hout | ].
        destruct (JsObject.get out k) eqn:Ek; [ reflexivity | ].
        destruct (String.eqb k x) eqn:E; [ | reflexivity ].
        apply String.eqb_eq in E. congruence.
      - destruct (inherited x) eqn:Einh; cbn [negb].
        + split; [ exact Hout | ].
          destruct (JsObject.get out k) eqn:Ek; [ reflexivity | ].
          destruct (String.eqb k x) eqn:E; [ | reflexivity ].
          apply String.eqb_eq in E. subst k. now rewrite Einh.
        + split.
          * intros k' v' H'.
            destruct (String.eqb k' x) eqn:E.
            -- apply String.eqb_eq in E. subst k'.
               rewrite JsObjectFacts.get_set_same in H'.
               now injection H' as <-.
            -- rewrite (JsObjectFacts.get_set_other _ _ _ _ E) in H'.
               now apply (Hout k' v').
          * destruct (String.eqb k x) eqn:E.
            -- apply String.eqb_eq in E. subst k.
               rewrite Ex, Einh. apply JsObjectFacts.get_set_same.
            -- rewrite (JsObjectFacts.get_set_other _ _ _ _ E).
               now destruct (JsObject.get out k). }
    destruct Hnext as [Htruthy Hget].
    destruct (IH next k Htruthy) as [Hall Hk].
    split; [ exact Hall | ].
    rewrite Hk, Hget. unfold set_has at 2. cbn [existsb]. fold (set_has l k).
    destruct (JsObject.get out k); [ reflexivity | ].
    destruct (String.eqb k x), (inherited k), (set_has l k); reflexivity.
Qed.

Lemma get_In {A} (o : JsObject.t A) k v :
  JsObject.get o k = Some v -> In (k, v) o.
Proof.
  induction o as [ | [k' v'] rest IH ]; simpl; intros H.
  - discriminate.
  - destruct (String.eqb k k') eqn:E.
    + apply String.eqb_eq in E. injection H as <-. left. congruence.
    + right. now apply IH.
Qed.

Lemma addVariables_empty out : addVariables "" out = out.
Proof. reflexivity. Qed.

Lemma addTexts_get (texts : list string) : forall out k,
  allTruthy out ->
  JsObject.get (fold_left (fun acc t => addVariables t acc) texts out) k
  = match JsObject.get out k with
    | Some v => Some v
    | None =>
        if existsb (fun t => set_has (extractDynamicVariables t) k) texts
           && negb (inherited k)
        then Some (VStr "sample_string_value") else None
    end.
Proof.
  induction texts as [ | t texts IH ]; intros out k Hout; cbn [fold_left existsb].
  - now destruct (JsObject.get out k).
  - destruct (addVariables_get t out k Hout) as [Hall Hget].
    rewrite (IH _ k Hall), Hget.
    destruct (JsObject.get out k); [ reflexivity | ].
    destruct (set_has (extractDynamicVariables t) k), (inherited k),
      (existsb (fun t => set_has (extractDynamicVariables t) k) texts);
      reflexivity.
Qed.

Lemma textFields_fold data (fields : list string) : forall out,
  fold_left
    (fun out field =>
       match getStringField data field with
       | Some textValue =>
           if String.eqb textValue "" then out else addVariables textValue out
       | None => out
       end)
    fields out
  = fold_left (fun acc t => addVariables t acc)
      (concat
         (map
            (fun field =>
               match getStringField data field with
               | Some t => [t]
               | None => []
               end)
            fields))
      out.
Proof.
  induction fields as [ | field fields IH ]; intros out;
    cbn [map concat fold_left].
  - reflexivity.
  - rewrite fold_left_app, IH. f_equal.
    destruct (getStringField data field) as [ t | ]; cbn [fold_left];
      [ | reflexivity ].
    destruct (String.eqb_spec t "") as [-> | _]; reflexivity.
Qed.

Lemma sampleOutput_as_texts data :
  generateSampleOutput data
  = fold_left (fun acc t => addVariables t acc) (variableTexts data)
      (fold_left
         (fun out kv => JsObject.set out (fst kv) (generateSampleValue (snd kv)))
         (schemaFields data) []).
Proof.
  unfold generateSampleOutput, variableTexts, schemaFields.
  rewrite textFields_fold, fold_left_app. f_equal.
  destruct (inputSchema data) as [ schema | ];
    (destruct (template data) as [ text | ]; cbn [fold_left];
     [ destruct (String.eqb_spec text "") as [-> | _]; reflexivity
     | reflexivity ]).
Qed.

Lemma get_map_values {A B} (h : A -> B) (o : JsObject.t A) k :
  JsObject.get (map (fun kv => (fst kv, h (snd kv))) o) k
  = option_map h (JsObject.get o k).
Proof.
  induction o as [ | [k' v] rest IH ]; simpl.
  - reflexivity.
  - destruct (String.eqb k k'); [ reflexivity | exact IH ].
Qed.

(** X15: in the sample output of a node, every field of the input schema
    has the sample of its own type, every variable that some text of the
    node mentions, that is no schema field and that is not the name of a
    member of [Object.prototype] has the sample string, and there is
    nothing else; a schema field is never overwritten by a variable of the
    same name.  The schema is taken to have no field named [__proto__],
    which an assignment does not store as a property. *)
Theorem X15_sample_output_fields :
  forall data k,
    JsObject.ordered (schemaFields data) = true ->
    JsObject.get (schemaFields data) "__proto__" = None ->
    JsObject.get (generateSampleOutput data) k
    = match JsObject.get (schemaFields data) k with
      | Some fieldSchema => Some (generateSampleValue fieldSchema)
      | None =>
          if mentioned data k && negb (inherited k)
          then Some (VStr "sample_string_value") else None
      end.
Proof.
  intros data k Hord _.
  rewrite sampleOutput_as_texts.
  rewrite (JsObjectFacts.rebuild_ordered
             (fun kv => generateSampleValue (snd kv)) (schemaFields data) [])
    by exact Hord.
  cbn [app].
  pose proof (get_map_values generateSampleValue (schemaFields data)) as Hget.
  rewrite addTexts_get.
  - rewrite Hget. unfold mentioned.
    now destruct (JsObject.get (schemaFields data) k).
  - intros key v Hv. rewrite Hget in Hv.
    destruct (JsObject.get (schemaFields data) key); [ | discriminate ].
    injection Hv as <-. apply sample_truthy.
Qed.

Lemma X15_sample_output_fields_witness :
  JsObject.get (generateSampleOutput mailNodeData) "count" = Some (VNum 42)
  /\ JsObject.get (generateSampleOutput mailNodeData) "topic"
     = Some (VStr "sample_string_value")
  /\ JsObject.get (generateSampleOutput mailNodeData) "toString" = None
  /\ JsObject.get (generateSampleOutput mailNodeData) "hidden" = None.
Proof.
  split; [ | split; [ | split ] ].
  - rewrite (X15_sample_output_fields mailNodeData "count"); reflexivity.
  - rewrite (X15_sample_output_fields mailNodeData "topic"); reflexivity.
  - rewrite (X15_sample_output_fields mailNodeData "toString"); reflexivity.
  - rewrite (X15_sample_output_fields mailNodeData "hidden"); reflexivity.
Defined.

(** ** Paths into available data *)

Lemma splitDots_not_nil s : splitDots s <> [].
Proof.
  destruct s as [ | c s ]; simpl; [ discriminate | ].
  destruct (Ascii.eqb c "."); [ discriminate | ].
  destruct (splitDots s); discriminate.
Qed.

Lemma splitDots_prefix k p :
  dotFree k = true -> splitDots (k ++ String "." p) = k :: splitDots p.
Proof.
  unfold dotFree.
  induction k as [ | c k IH ]; simpl; intros H.
  - reflexivity.
  - apply andb_prop in H as [Hc Hk]. apply negb_true_iff in Hc.
    now rewrite Hc, (IH Hk).
Qed.

Lemma splitDots_plain k : dotFree k = true -> splitDots k = [k].
Proof.
  unfold dotFree.
  induction k as [ | c k IH ]; simpl; intros H.
  - reflexivity.
  - apply andb_prop in H as [Hc Hk]. apply negb_true_iff in Hc.
    now rewrite Hc, (IH Hk).
Qed.

Lemma splitDots_head_dotFree s :
  match splitDots s with
  | segment :: _ => dotFree segment = true
  | [] => True
  end.
Proof.
  unfold dotFree.
  induction s as [ | c s IH ]; simpl.
  - reflexivity.
  - destruct (Ascii.eqb c ".") eqn:E; [ reflexivity | ].
    destruct (splitDots s) as [ | segment others ]; simpl.
    + now rewrite E.
    + now rewrite E, IH.
Qed.

Lemma walkPath_falsy keys v :
  keys <> [] -> truthy v = false -> walkPath keys v = VUndefined.
Proof.
  intros Hk Hv. destruct keys as [ | key rest ]; [ congruence | ].
  cbn [walkPath]. unfold isObjectLike. now rewrite Hv.
Qed.

(** X16: a path is followed one dot-separated key at a time: resolving
    [k.p] in an object that has the property [k] is resolving [p] in that
    property, and a property whose own name contains a dot is never
    reached, so that writing such a property changes the result of no
    path. *)
Theorem X16_paths_descend_key_by_key :
  forall fields k child p v path,
    (dotFree k = true -> JsObject.get fields k = Some child -> p <> "" ->
     getValueFromPath (VObj fields) (k ++ "." ++ p) = getValueFromPath child p)
    /\ (dotFree k = false ->
        getValueFromPath (VObj (JsObject.set fields k v)) path
        = getValueFromPath (VObj fields) path).
Proof.
  intros fields k child p v path. split.
  - intros Hk Hget Hp.
    unfold getValueFromPath. cbn [truthy negb orb].
    assert (Hnonempty : String.eqb (k ++ "." ++ p) "" = false).
    { apply String.eqb_neq. destruct k; discriminate. }
    rewrite Hnonempty.
    apply String.eqb_neq in Hp. rewrite Hp, orb_false_r.
    cbn [append]. rewrite (splitDots_prefix k p Hk).
    cbn [walkPath isObjectLike truthy typeofValue property andb].
    rewrite String.eqb_refl, Hget.
    destruct (truthy child) eqn:Et; cbn [negb]; [ reflexivity | ].
    apply walkPath_falsy; [ apply splitDots_not_nil | exact Et ].
  - intros Hk.
    unfold getValueFromPath. cbn [truthy negb orb].
    destruct (String.eqb path ""); [ reflexivity | ].
    pose proof (splitDots_head_dotFree path) as Hhead.
    pose proof (splitDots_not_nil path) as Hsome.
    destruct (splitDots path) as [ | segment others ]; [ congruence | ].
    cbn [walkPath isObjectLike truthy typeofValue property andb].
    rewrite String.eqb_refl.
    rewrite JsObjectFacts.get_set_other; [ reflexivity | ].
    apply String.eqb_neq. intros ->. congruence.
Qed.

Lemma X16_paths_descend_key_by_key_witness :
  getValueFromPath
    (VObj [("source", VObj [("answer", VStr "hi")])]) "source.answer"
  = VStr "hi"
  /\ getValueFromPath
       (VObj (JsObject.set [("message", VStr "hello")]
                "session.direct_input" (VStr "hello")))
       "session.direct_input"
     = VUndefined.
Proof.
  split.
  - destruct (X16_paths_descend_key_by_key
                [("source", VObj [("answer", VStr "hi")])] "source"
                (VObj [("answer", VStr "hi")]) "answer" VNull "") as [H _].
    transitivity (getValueFromPath (VObj [("answer", VStr "hi")]) "answer");
      [ | reflexivity ].
    apply H; [ reflexivity | reflexivity | discriminate ].
  - destruct (X16_paths_descend_key_by_key
                [("message", VStr "hello")] "session.direct_input"
                VNull "" (VStr "hello") "session.direct_input") as [_ H].
    rewrite H; reflexivity.
Defined.

(** ** The default template of the aggregator *)

Lemma scan_placeholders (names : list string) :
  Forall (fun v => plainName v = true) names ->
  scanFrom 0 (JsString.join ", " (map placeholder names)) = names.
Proof.
  induction names as [ | a [ | b rest ] IH ]; intros H.
  - reflexivity.
  - inversion H as [ | ? ? Ha _ ]; subst.
    cbn [map JsString.join].
    rewrite scan_unfold. rewrite <- (append_nil_r (placeholder a)).
    now rewrite (matchHere_placeholder a "" Ha).
  - inversion H as [ | ? ? Ha Hrest ]; subst.
    cbn [map JsString.join] in IH |- *.
    rewrite scan_unfold, (matchHere_placeholder a _ Ha). f_equal.
    cbn [append]. rewrite scan_unfold. cbn [matchHere].
    rewrite scan_unfold. cbn [matchHere].
    now apply IH.
Qed.

Lemma outputAddress_plain id :
  plainRun id = true -> plainName (outputAddress id) = true.
Proof.
  intros H. unfold plainName, outputAddress. cbn. exact H.
Qed.

Lemma autoTemplate_placeholders edges nodeId :
  autoTemplate edges nodeId
  = JsString.join ", "
      (map placeholder (map outputAddress (directSources edges nodeId))).
Proof.
  unfold autoTemplate. rewrite map_map.
  destruct (directSources edges nodeId) as [ | id ids ]; reflexivity.
Qed.

Lemma directSources_In edges nodeId id :
  In id (directSources edges nodeId) <->
  exists e, In e edges /\ Flow.Edge.target e = nodeId /\ Flow.Edge.source e = id.
Proof.
  unfold directSources. rewrite in_map_iff. split.
  - intros [e [Hs He]]. apply filter_In in He as [He Ht].
    apply String.eqb_eq in Ht. now exists e.
  - intros [e [He [Ht Hs]]]. exists e. split; [ exact Hs | ].
    apply filter_In. split; [ exact He | now apply String.eqb_eq ].
Qed.

Lemma resolve_output_address sessionData sourceData outputs id out :
  dotFree id = true -> JsObject.get outputs id = Some out ->
  getValueFromPath (availableData sessionData sourceData outputs)
    (outputAddress id) = out.
Proof.
  intros Hid Hget.
  unfold getValueFromPath, availableData, outputAddress.
  cbn [truthy negb orb].
  change ("node_outputs." ++ id) with ("node_outputs" ++ String "." id).
  assert (Hne : String.eqb ("node_outputs" ++ String "." id) "" = false)
    by reflexivity.
  rewrite Hne, (splitDots_prefix "node_outputs" id eq_refl),
    (splitDots_plain id Hid).
  cbn [walkPath isObjectLike truthy typeofValue andb property JsObject.get].
  cbn. now rewrite Hget.
Qed.

(** X17: the default template that the aggregator dialog builds from the
    edges into a node mentions exactly one variable [node_outputs.<id>] for
    each source of such an edge (when the ids hold no brace and no white
    space); and against the data available to the node each of them
    resolves to the redacted output of that source, when the source is
    another node with a usable output and its id holds no dot. *)
Theorem X17_default_template_resolves :
  forall state nodes edges nodeId,
    (forall id, In id (directSources edges nodeId) -> plainRun id = true) ->
    (forall v,
       In v (extractDynamicVariables (autoTemplate edges nodeId))
       <-> exists id, In id (directSources edges nodeId) /\ v = outputAddress id)
    /\ (forall id out,
          In id (directSources edges nodeId) ->
          dotFree id = true -> id <> nodeId ->
          exposedOutput state id = Some out ->
          exists data,
            getAvailableDataForNode state nodes edges nodeId = Ok data
            /\ getValueFromPath data (outputAddress id) = out).
Proof.
  intros state nodes edges nodeId Hplain. split.
  - intros v. unfold extractDynamicVariables.
    rewrite autoTemplate_placeholders, scan_placeholders.
    + rewrite fold_set_add_In, in_map_iff. split.
      * intros [[] | [id [<- Hid]]]. now exists id.
      * intros [id [Hid ->]]. right. now exists id.
    + apply Forall_forall. intros a Ha.
      apply in_map_iff in Ha as [id [<- Hid]].
      apply outputAddress_plain. now apply Hplain.
  - intros id out Hid Hdot Hne Hout.
    apply directSources_In in Hid as [e [He [Ht Hs]]].
    assert (Hup : upstream edges nodeId id)
      by (rewrite <- Hs; now apply upstream_direct).
    destruct (available_cases state nodes edges nodeId)
      as [found [_ [Hids Hrun]]].
    rewrite Hrun.
    assert (Hin : In id (predecessorIdsOf found nodeId)) by (apply Hids; tauto).
    destruct (predecessorIdsOf found nodeId) as [ | q rest ] eqn:E;
      [ contradiction | ].
    eexists. split; [ reflexivity | ].
    apply resolve_output_address; [ exact Hdot | ].
    rewrite collectOutputs_get.
    apply set_has_In in Hin. now rewrite Hin.
Qed.

Lemma X17_default_template_resolves_witness :
  extractDynamicVariables (autoTemplate agentEdges "agent-1")
  = ["node_outputs.chat-1"; "node_outputs.tool-1"]
  /\ exists data,
       getAvailableDataForNode (runOps agentRecorded) agentNodes agentEdges
         "agent-1" = Ok data
       /\ getValueFromPath data "node_outputs.chat-1"
          = VObj [("message", VStr "hello")].
Proof.
  split; [ reflexivity | ].
  destruct (X17_default_template_resolves
              (runOps agentRecorded) agentNodes agentEdges "agent-1")
    as [_ H].
  - intros id [<- | [<- | []]]; reflexivity.
  - apply (H "chat-1"); [ now left | reflexivity | discriminate | reflexivity ].
Defined.

(** ** The signature does not depend on the order of the fields *)

Lemma ascii_compare_lt_trans a b c :
  Ascii.compare a b = Lt -> Ascii.compare b c = Lt -> Ascii.compare a c = Lt.
Proof.
  unfold Ascii.compare. rewrite !N.compare_lt_iff. apply N.lt_trans.
Qed.

Lemma string_compare_lt_trans : forall s1 s2 s3,
  String.compare s1 s2 = Lt -> String.compare s2 s3 = Lt ->
  String.compare s1 s3 = Lt.
Proof.
  induction s1 as [ | c1 s1 IH ]; intros [ | c2 s2 ] [ | c3 s3 ]; simpl;
    try discriminate; try reflexivity.
  destruct (Ascii.compare c1 c2) eqn:E12; try discriminate;
    destruct (Ascii.compare c2 c3) eqn:E23; try discriminate; intros H1 H2.
  - apply Ascii.compare_eq_iff in E12, E23. subst.
    assert (Hrefl : Ascii.compare c3 c3 = Eq)
      by (unfold Ascii.compare; apply N.compare_refl).
    rewrite Hrefl. now apply (IH s2).
  - apply Ascii.compare_eq_iff in E12. subst. now rewrite E23.
  - apply Ascii.compare_eq_iff in E23. subst. now rewrite E12.
  - now rewrite (ascii_compare_lt_trans _ _ _ E12 E23).
Qed.

Lemma string_leb_trans s1 s2 s3 :
  String.leb s1 s2 = true -> String.leb s2 s3 = true -> String.leb s1 s3 = true.
Proof.
  unfold String.leb.
  destruct (String.compare s1 s2) eqn:E12; try discriminate;
    destruct (String.compare s2 s3) eqn:E23; try discriminate; intros _ _.
  - apply String.compare_eq_iff in E12, E23. subst.
    pose proof (String.compare_antisym s3 s3) as Hself.
    destruct (String.compare s3 s3); try reflexivity. discriminate Hself.
  - apply String.compare_eq_iff in E12. subst. now rewrite E23.
  - apply String.compare_eq_iff in E23. subst. now rewrite E12.
  - now rewrite (string_compare_lt_trans _ _ _ E12 E23).
Qed.

Lemma string_leb_false s1 s2 :
  String.leb s1 s2 = false -> String.leb s2 s1 = true.
Proof.
  intros H. destruct (String.leb_total s1 s2); congruence.
Qed.

Lemma insert_key_comm a b : fst a <> fst b ->
  forall l, insert_key a (insert_key b l) = insert_key b (insert_key a l).
Proof.
  intros Hne.
  assert (Hab : String.leb (fst a) (fst b) = negb (String.leb (fst b) (fst a))).
  { destruct (String.leb (fst a) (fst b)) eqn:E1,
      (String.leb (fst b) (fst a)) eqn:E2; try reflexivity.
    - exfalso. apply Hne. now apply String.leb_antisym.
    - apply string_leb_false in E1. congruence. }
  induction l as [ | h t IH ].
  - cbn [insert_key]. rewrite Hab.
    destruct (String.leb (fst b) (fst a)); reflexivity.
  - cbn [insert_key].
    destruct (String.leb (fst a) (fst h)) eqn:Ea,
      (String.leb (fst b) (fst h)) eqn:Eb; cbn [insert_key].
    + rewrite Hab, Ea, Eb.
      destruct (String.leb (fst b) (fst a)); reflexivity.
    + rewrite Ea, Eb.
      destruct (String.leb (fst b) (fst a)) eqn:Eba; [ | reflexivity ].
      rewrite (string_leb_trans _ _ _ Eba Ea) in Eb. discriminate.
    + rewrite Ea, Eb.
      destruct (String.leb (fst a) (fst b)) eqn:Eab; [ | reflexivity ].
      rewrite (string_leb_trans _ _ _ Eab Eb) in Ea. discriminate.
    + rewrite Ea, Eb. now rewrite IH.
Qed.

Lemma sort_keys_permutation l l' :
  Permutation l l' -> NoDup (map fst l) -> sort_keys l = sort_keys l'.
Proof.
  unfold sort_keys.
  induction 1 as [ | x l l' Hperm IH | x y l | l l' l'' H1 IH1 H2 IH2 ];
    intros Hnd.
  - reflexivity.
  - cbn [fold_right]. rewrite IH; [ reflexivity | ].
    simpl in Hnd. now inversion Hnd.
  - cbn [fold_right]. apply insert_key_comm.
    simpl in Hnd. inversion Hnd as [ | ? ? Hnotin _ ]; subst.
    intros Heq. apply Hnotin. left. congruence.
  - rewrite IH1 by exact Hnd. apply IH2.
    eapply Permutation_NoDup; [ | exact Hnd ].
    now apply Permutation_map.
Qed.

(** X18: two objects with the same fields have the same signature in
    whatever order the fields are listed, so an array of such objects
    counts as uniform. *)
Theorem X18_signature_ignores_field_order :
  forall fields fields',
    Permutation fields fields' ->
    NoDup (JsObject.keys fields) ->
    getSchemaSignature (VObj fields) = getSchemaSignature (VObj fields')
    /\ hasUniformSchema [VObj fields; VObj fields'] = true.
Proof.
  intros fields fields' Hperm Hnd.
  assert (Hsig : getSchemaSignature (VObj fields)
                 = getSchemaSignature (VObj fields')).
  { cbn [getSchemaSignature].
    rewrite (sort_keys_permutation
               (map (fun kv => (fst kv, getSchemaSignature (snd kv))) fields)
               (map (fun kv => (fst kv, getSchemaSignature (snd kv))) fields')).
    - reflexivity.
    - now apply Permutation_map.
    - rewrite map_map. exact Hnd. }
  split; [ exact Hsig | ].
  unfold hasUniformSchema. cbn [length Nat.leb nth forallb].
  now rewrite <- Hsig, String.eqb_refl.
Qed.

Lemma X18_signature_ignores_field_order_witness :
  getSchemaSignature (VObj [("id", VNum 1); ("name", VStr "a")])
  = getSchemaSignature (VObj [("name", VStr "a"); ("id", VNum 1)]).
Proof.
  apply (X18_signature_ignores_field_order
           [("id", VNum 1); ("name", VStr "a")]
           [("name", VStr "a"); ("id", VNum 1)]).
  - apply perm_swap.
  - repeat constructor; simpl; intuition discriminate.
Defined.

(** ** Source and node outputs agree *)

(** X19: in the data object the two views of a direct predecessor agree
    for every direct predecessor other than the node itself: with a single
    direct predecessor [source] is what [node_outputs] holds for it (or the
    empty object when it holds nothing), and otherwise [source] and
    [node_outputs] have the same entry for it. *)
Theorem X19_source_agrees_with_node_outputs :
  forall state nodes edges nodeId p,
    In p (directPredecessors nodes edges nodeId) -> p <> nodeId ->
    exists sourceData outputs,
      getAvailableDataForNode state nodes edges nodeId
      = Ok (availableData (session state) sourceData outputs)
      /\ (directPredecessors nodes edges nodeId = [p] ->
          sourceData = match JsObject.get outputs p with
                       | Some out => out
                       | None => VObj []
                       end)
      /\ (length (directPredecessors nodes edges nodeId) <> 1%nat ->
          JsObject.get (ownEntries sourceData) p = JsObject.get outputs p).
Proof.
  intros state nodes edges nodeId p Hdirect Hne.
  pose proof (directPredecessors_upstream nodes edges nodeId p Hdirect) as Hup.
  destruct (available_cases state nodes edges nodeId)
    as [found [_ [Hids Hrun]]].
  rewrite Hrun.
  assert (Hin : In p (predecessorIdsOf found nodeId)) by (apply Hids; tauto).
  destruct (predecessorIdsOf found nodeId) as [ | q rest ] eqn:E;
    [ contradiction | ].
  exists (directSource state (directPredecessors nodes edges nodeId)),
    (collectOutputs state (q :: rest)).
  split; [ reflexivity | ].
  assert (Hout : JsObject.get (collectOutputs state (q :: rest)) p
                 = exposedOutput state p).
  { rewrite collectOutputs_get. apply set_has_In in Hin. now rewrite Hin. }
  rewrite Hout. split.
  - intros ->. reflexivity.
  - intros Hlen. unfold directSource.
    destruct (directPredecessors nodes edges nodeId) as [ | d [ | d' more ] ]
      eqn:Ed.
    + contradiction.
    + now contradiction Hlen.
    + cbn [ownEntries]. rewrite collectOutputs_get.
      apply set_has_In in Hdirect. now rewrite Hdirect.
Qed.

Lemma X19_source_agrees_with_node_outputs_witness :
  exists sourceData outputs,
    getAvailableDataForNode (runOps chatThenModel) chainNodes chainEdges "mail-1"
    = Ok (availableData (session (runOps chatThenModel)) sourceData outputs)
    /\ sourceData = match JsObject.get outputs "llm-1" with
                    | Some out => out
                    | None => VObj []
                    end.
Proof.
  destruct (X19_source_agrees_with_node_outputs
              (runOps chatThenModel) chainNodes chainEdges "mail-1" "llm-1")
    as [sourceData [outputs [Hrun [Hsingle _]]]].
  - now left.
  - discriminate.
  - exists sourceData, outputs. split; [ exact Hrun | ].
    apply Hsingle. reflexivity.
Defined.

(** ** From a value to its text and back *)

(** X20: the text that [valueToString] shows for a value is read back by
    [parseInputValue] as the same value for every boolean under type
    [boolean] and for every string under type [string]; [null] and
    [undefined] are shown as the empty text and come back as the empty
    string under every type. *)
Theorem X20_text_round_trip :
  forall (JSON_parse : string -> option value) (parseFloat : string -> float)
         (JSON_stringify : value -> option string)
         (numberToString : float -> string),
    let parse := parseInputValue JSON_parse parseFloat in
    let text := valueToString JSON_stringify numberToString in
    (forall b, parse (text (VBool b) TBoolean) TBoolean = Ok (VBool b))
    /\ (forall s, parse (text (VStr s) TString) TString = Ok (VStr s))
    /\ (forall type,
          parse (text VNull type) type = Ok (VStr "")
          /\ parse (text VUndefined type) type = Ok (VStr "")).
Proof.
  intros JSON_parse parseFloat JSON_stringify numberToString parse text.
  subst parse text. split; [ | split ].
  - intros [ | ]; reflexivity.
  - intros s. cbn [valueToString toText]. unfold parseInputValue.
    now destruct (String.eqb s "" || String.eqb (JsString.trim s) "").
  - intros type. split; reflexivity.
Qed.
